(** * Earthquake parametric insurance: payouts and burning cost

    A shallow embedding of [src/earthquakes/tools.py]:
    [get_haversine_distance], [compute_payouts] and [compute_burning_cost],
    and of the two pure parts of [src/earthquakes/usgs_api.py]: the
    assembly of the request URL in [build_api_url] and the loop that merges
    the downloaded catalogues in
    [get_earthquake_data_for_multiple_locations].

    Modelling choices.
    - The payout engine only compares numbers.  Its numbers are modelled as
      canonical rationals [Qc] (Leibniz equality); [float(x)] on a number
      is the identity.  NaN is outside this model.
    - The aggregator adds and divides.  It is given twice: in exact numbers
      over a [gmap Z Qc] ([compute_burning_cost]), and over the arithmetic
      of the dtype of the summed array and the dictionary in insertion
      order ([compute_burning_cost_dtype]), with exact numbers and int64
      with a float64 quotient as instances.
    - [int(t[0:4])] may raise [ValueError]; raising is modelled by [None]
      and threaded through [compute_payouts] with the option monad.
    - [print] in [compute_burning_cost] writes to standard output and does
      not influence the returned value; it is not modelled.
    - The distance calculator is written once over an interface of
      arithmetic operations ([Arith]), instantiated with the real numbers. *)

From Stdlib Require Import ZArith QArith Qcanon String Ascii List Reals Lqa Lra.
From Stdlib Require PrimFloat Uint63.
From stdpp Require Import base numbers option list strings pretty gmap fin_maps.

Local Open Scope Z_scope.

(** ** Column names and constants of the module *)

Definition EARTH_RADIUS : Z := 6378.

(** ** Data model *)

(** One row of [earthquake_data[[TIME_COLUMN, MAGNITUDE_COLUMN,
    DISTANCE_COLUMN]].values]. *)
Record event := Event {
  time : string;
  mag : Qc;
  distance : Qc
}.

(** One row of [payouts_str[['Radius', 'Magnitude', 'Payout']].values]. *)
Record band := Band {
  Radius : Qc;
  Magnitude : Qc;
  Payout : Qc
}.

(** ** Python's [int] on the ASCII fragment of [str] *)

Module PyInt.

(** The white space that [int] strips at both ends of an ASCII text:
    the characters 9 to 13 and the blank. *)
Definition is_space (c : ascii) : bool :=
  let n := N_of_ascii c in
  ((9 <=? n) && (n <=? 13) || (n =? 32))%N.

Definition digit_val (c : ascii) : option Z :=
  let n := N_of_ascii c in
  if ((48 <=? n) && (n <=? 57))%N then Some (Z.of_N n - 48) else None.

Definition is_underscore (c : ascii) : bool := (N_of_ascii c =? 95)%N.

(** Decimal digits, where single underscores may separate digits.
    [prev] tells whether the previous character was a digit. *)
Fixpoint digits (l : list ascii) (acc : Z) (prev : bool) : option Z :=
  match l with
  | [] => if prev then Some acc else None
  | c :: l' =>
      if is_underscore c then
        if prev then digits l' acc false else None
      else
        match digit_val c with
        | Some d => digits l' (10 * acc + d) true
        | None => None
        end
  end.

Fixpoint lstrip (l : list ascii) : list ascii :=
  match l with
  | c :: l' => if is_space c then lstrip l' else l
  | [] => []
  end.

Definition strip (l : list ascii) : list ascii :=
  rev (lstrip (rev (lstrip l))).

Definition signed (l : list ascii) : option Z :=
  match l with
  | "+"%char :: l' => digits l' 0 false
  | "-"%char :: l' => Z.opp <$> digits l' 0 false
  | _ => digits l 0 false
  end.

(** [int(s)]: [None] stands for [ValueError]. *)
Definition int (s : string) : option Z :=
  signed (strip (list_ascii_of_string s)).

End PyInt.

(** [t[0:4]]: the first four characters, fewer when [t] is shorter. *)
Definition slice_0_4 (t : string) : string := String.substring 0 4 t.

(** [year = int(t[0:4])] *)
Definition event_year (ev : event) : option Z :=
  PyInt.int (slice_0_4 (time ev)).

(** ** Payout engine *)

(** The condition of the inner loop:
    [(float(dist) <= float(dist_str)) and (float(mg) >= float(mg_str))]. *)
Definition qualifies (mg dist : Qc) (b : band) : bool :=
  bool_decide (dist ≤ Radius b)%Qc && bool_decide (Magnitude b ≤ mg)%Qc.

(** One iteration of the inner loop over the schedule. *)
Definition scan_band (mg dist : Qc) (payout : Qc) (b : band) : Qc :=
  if qualifies mg dist b then
    if bool_decide (payout < Payout b)%Qc then Payout b else payout
  else payout.

(** The inner loop: [payout = 0], then one scan of the whole schedule. *)
Definition event_payout (payouts_str : list band) (mg dist : Qc) : Qc :=
  fold_left (scan_band mg dist) payouts_str (Qc_of_Z 0).

(** The [if year in payout_years: ... else: ...] statement. *)
Definition record_payout (payout_years : gmap Z Qc) (year : Z) (payout : Qc)
  : gmap Z Qc :=
  match payout_years !! year with
  | Some old =>
      if bool_decide (old < payout)%Qc then <[year := payout]> payout_years
      else payout_years
  | None => <[year := payout]> payout_years
  end.

(** The body of the outer loop, for one event. *)
Definition process_event (payouts_str : list band)
    (payout_years : gmap Z Qc) (ev : event) : option (gmap Z Qc) :=
  year ← event_year ev;
  Some (record_payout payout_years year
          (event_payout payouts_str (mag ev) (distance ev))).

(** The outer loop, started from a given dictionary. *)
Fixpoint payouts_loop (payouts_str : list band) (payout_years : gmap Z Qc)
    (earthquake_data : list event) : option (gmap Z Qc) :=
  match earthquake_data with
  | [] => Some payout_years
  | ev :: rest =>
      payout_years' ← process_event payouts_str payout_years ev;
      payouts_loop payouts_str payout_years' rest
  end.

Definition compute_payouts (earthquake_data : list event)
    (payouts_str : list band) : option (gmap Z Qc) :=
  payouts_loop payouts_str ∅ earthquake_data.

(** ** Burning cost aggregator *)

(** [(year >= start_year) and (year <= end_year)] *)
Definition in_range (start_year end_year year : Z) : bool :=
  (start_year <=? year) && (year <=? end_year).

(** The list [burn] after the loop over [list(payouts.keys())]. *)
Definition burn_list (payouts : gmap Z Qc) (start_year end_year : Z)
  : list Qc :=
  (filter (λ kv, in_range start_year end_year kv.1 = true)
          (map_to_list payouts)).*2.

(** [np.asarray(burn).sum()] in exact numbers; the arithmetic of the dtype
    of the array is the subject of [compute_burning_cost_dtype] below. *)
Definition np_sum (burn : list Qc) : Qc :=
  fold_right Qcplus (Qc_of_Z 0) burn.

Definition compute_burning_cost (payouts : gmap Z Qc)
    (start_year end_year : Z) : option Qc :=
  let burn := burn_list payouts start_year end_year in
  if (length burn <? 1)%nat then None
  else Some (np_sum burn / Qc_of_Z (end_year - start_year + 1))%Qc.

(** The default arguments [start_year=1952, end_year=2021]. *)
Definition compute_burning_cost_default (payouts : gmap Z Qc) : option Qc :=
  compute_burning_cost payouts 1952 2021.

(** ** Distance calculator *)

(** The arithmetic [get_haversine_distance] is written with: the operators
    [*], [-], [+], [/] and [**2] and numpy's [sin], [cos], [arcsin], [sqrt]
    and [pi].  [fint] embeds the integer literals of the source and
    [fneg] is unary minus, which the source does not call but in which the
    laws of [ArithLaws] are stated. *)
Class Arith (F : Type) := {
  fmul : F → F → F;
  fadd : F → F → F;
  fsub : F → F → F;
  fdiv : F → F → F;
  fsquare : F → F;
  np_sin : F → F;
  np_cos : F → F;
  np_arcsin : F → F;
  np_sqrt : F → F;
  np_pi : F;
  fint : Z → F;
  fneg : F → F
}.

(** The laws of the arithmetic on which the symmetry of the distance rests:
    multiplication commutes, swapping the operands of a subtraction negates
    the difference, division and sine are odd in their (first) argument and
    squaring forgets the sign. *)
Class ArithLaws (F : Type) `{Arith F} : Prop := {
  fmul_comm : ∀ x y : F, fmul x y = fmul y x;
  fsub_swap : ∀ x y : F, fsub x y = fneg (fsub y x);
  fdiv_fneg : ∀ x y : F, fdiv (fneg x) y = fneg (fdiv x y);
  np_sin_fneg : ∀ x : F, np_sin (fneg x) = fneg (np_sin x);
  fsquare_fneg : ∀ x : F, fsquare (fneg x) = fsquare x
}.

Section Haversine.
Context {F : Type} `{Arith F}.

(** [x * (np.pi/180)] *)
Definition to_radians (x : F) : F := fmul x (fdiv np_pi (fint 180)).

(** [a = np.sin(dlat/2)**2 + np.cos(lat0) * np.cos(lats) * np.sin(dlon/2)**2]
    with all four arguments already in radians. *)
Definition haversine_a (lats lons lat0 lon0 : F) : F :=
  let dlon := fsub lons lon0 in
  let dlat := fsub lats lat0 in
  fadd (fsquare (np_sin (fdiv dlat (fint 2))))
       (fmul (fmul (np_cos lat0) (np_cos lats))
             (fsquare (np_sin (fdiv dlon (fint 2))))).

(** The function on one point [(lats, lons)]. *)
Definition get_haversine_distance (lats lons lat0 lon0 : F) : F :=
  let lats := to_radians lats in
  let lons := to_radians lons in
  let lat0 := to_radians lat0 in
  let lon0 := to_radians lon0 in
  let a := haversine_a lats lons lat0 lon0 in
  let c := fmul (fint 2) (np_arcsin (np_sqrt a)) in
  let r := fint EARTH_RADIUS in
  fmul c r.

(** The function on two one-dimensional arrays, element by element.
    Arrays of equal length are paired; an array of one element is
    broadcast along the other; [None] stands for numpy's error on any other
    pair of lengths. *)
Definition get_haversine_distance_seq (lats lons : list F) (lat0 lon0 : F)
  : option (list F) :=
  let distance lat lon := get_haversine_distance lat lon lat0 lon0 in
  if bool_decide (length lats = length lons) then
    Some (zip_with distance lats lons)
  else
    match lats, lons with
    | [lat], _ => Some (distance lat <$> lons)
    | _, [lon] => Some ((λ lat, distance lat lon) <$> lats)
    | _, _ => None
    end.
End Haversine.

(** The real numbers as an instance of the arithmetic. *)
#[export] Instance R_Arith : Arith R := {|
  fmul := Rmult;
  fadd := Rplus;
  fsub := Rminus;
  fdiv := Rdiv;
  fsquare := Rsqr;
  np_sin := sin;
  np_cos := cos;
  np_arcsin := asin;
  np_sqrt := sqrt;
  np_pi := PI;
  fint := IZR;
  fneg := Ropp
|}.

(** ** Vocabulary of the specification *)

(** The payouts of the bands of the schedule for which both conditions
    hold, in schedule order. *)
Definition qualifying_payouts (payouts_str : list band) (mg dist : Qc)
  : list Qc :=
  Payout <$> filter (λ b, qualifies mg dist b = true) payouts_str.

(** [v] is the maximum of the list [l]: a member that bounds all members. *)
Definition is_max_of (l : list Qc) (v : Qc) : Prop :=
  v ∈ l ∧ ∀ x, x ∈ l → (x ≤ v)%Qc.

(** The per-event payout of an event. *)
Definition payout_of (payouts_str : list band) (ev : event) : Qc :=
  event_payout payouts_str (mag ev) (distance ev).

(** The events of the catalogue that fall in calendar year [y]. *)
Definition events_of_year (y : Z) (earthquake_data : list event)
  : list event :=
  filter (λ ev, event_year ev = Some y) earthquake_data.

(** The amount a year holds once [payout] has been offered to it: a year
    without an entry takes the offer, a year with an entry keeps the larger
    of the two. *)
Definition keep_larger (o : option Qc) (payout : Qc) : Qc :=
  match o with
  | Some old => if bool_decide (old < payout)%Qc then payout else old
  | None => payout
  end.

(** The entry of one year after the events [evs] of that year have been
    offered, in order, to the entry [o]. *)
Definition yearly_value (payouts_str : list band) (o : option Qc)
    (evs : list event) : option Qc :=
  fold_left (λ o ev, Some (keep_larger o (payout_of payouts_str ev))) evs o.

(** The years [start_year, ..., end_year]. *)
Definition interval_years (start_year end_year : Z) : list Z :=
  seqZ start_year (end_year - start_year + 1).

(** The payouts summed year by year over the requested interval, a year
    absent from the mapping counting for nothing. *)
Definition interval_total (payouts : gmap Z Qc) (start_year end_year : Z)
  : Qc :=
  np_sum ((λ y, default (Qc_of_Z 0) (payouts !! y))
            <$> interval_years start_year end_year).

(** What the key [i] with value [x] adds to the sum over an interval. *)
Definition share (start_year end_year i : Z) (x : Qc) : Qc :=
  if in_range start_year end_year i then x else Qc_of_Z 0.

(** The per-event payout as the specification words it: the maximum payout
    over the qualifying bands, 0 when no band qualifies, never negative. *)
Definition event_payout_as_specified (payouts_str : list band)
    (mg dist : Qc) : Prop :=
  let q := qualifying_payouts payouts_str mg dist in
  let p := event_payout payouts_str mg dist in
  (q ≠ [] → is_max_of q p) ∧ (q = [] → p = Qc_of_Z 0) ∧ (Qc_of_Z 0 ≤ p)%Qc.

(** ** Sample data *)

Definition scenario_events : list event :=
  [Event "20010615" (Qc_of_Z 6) (Qc_of_Z 50)].

Definition scenario_schedule : list band :=
  [Band (Qc_of_Z 100) (Qc_of_Z 5) (Qc_of_Z 500);
   Band (Qc_of_Z 50) (Q2Qc (13 # 2)) (Qc_of_Z 1000)].

(** Two events of 2001, the first triggering 100 and the second 300, and a
    third event of 1999 that is out of reach of every band. *)
Definition same_year_events : list event :=
  [Event "2001-03-01T10:00:00.000Z" (Qc_of_Z 5) (Qc_of_Z 80);
   Event "2001-09-17T04:30:00.000Z" (Qc_of_Z 7) (Qc_of_Z 20);
   Event "1999-01-02T00:00:00.000Z" (Qc_of_Z 3) (Qc_of_Z 500)].

Definition same_year_schedule : list band :=
  [Band (Qc_of_Z 100) (Qc_of_Z 5) (Qc_of_Z 100);
   Band (Qc_of_Z 50) (Qc_of_Z 6) (Qc_of_Z 300)].

(** A schedule whose only band carries a negative amount. *)
Definition negative_schedule : list band :=
  [Band (Qc_of_Z 100) (Qc_of_Z 5) (Qc_of_Z (-10))].

(** One event within reach of the band of [negative_schedule]. *)
Definition reached_events : list event :=
  [Event "2001-03-01T10:00:00.000Z" (Qc_of_Z 6) (Qc_of_Z 50)].

Definition same_year_payouts : gmap Z Qc :=
  {[ 2001 := Qc_of_Z 300; 1999 := Qc_of_Z 0 ]}.

Definition denominator_payouts : gmap Z Qc :=
  {[ 2000 := Qc_of_Z 100; 2001 := Qc_of_Z 0 ]}.

(** ** Merging the catalogues of several locations

    The loop that ends [get_earthquake_data_for_multiple_locations] in
    [src/earthquakes/usgs_api.py], on the catalogues once downloaded and
    read by [pd.read_csv], in the order of the requests.  A data frame is
    the list of its rows in positional order, all catalogues having the
    same columns; [pd.concat] appends the rows, [drop_duplicates] keeps the
    first of equal rows, and [reset_index(drop = True)] renumbers the rows
    by position.  The download itself is not modelled. *)

Section Catalogues.
Context {row : Type} `{EqDecision row}.

(** [df.drop_duplicates()]: every row that equals an earlier row is
    dropped. *)
Fixpoint drop_duplicates (df : list row) : list row :=
  match df with
  | [] => []
  | r :: df' => r :: filter (λ r', r' ≠ r) (drop_duplicates df')
  end.

(** The body of the loop over [list_catalogues]. *)
Definition merge_step (Eq_catalogues : option (list row))
    (catalogue : list row) : option (list row) :=
  match Eq_catalogues with
  | None => Some catalogue
  | Some eq_catalogues => Some (drop_duplicates (eq_catalogues ++ catalogue))
  end.

(** [Eq_catalogues = None], then the loop; [None] is Python's [None]. *)
Definition merge_catalogues (list_catalogues : list (list row))
  : option (list row) :=
  fold_left merge_step list_catalogues None.

End Catalogues.

(** ** The request URL

    [build_api_url] of [src/earthquakes/usgs_api.py].  Python's [str] on
    the numbers, [strftime("%Y-%m-%d")] on the dates and the subtraction
    [end_date - datetime.timedelta(days=(200*365.24))] are library
    functions; the URL is built over any three such functions. *)

Definition usgs_page : string :=
  "https://earthquake.usgs.gov/fdsnws/event/1/query?format=csv".

Section ApiUrl.
Context {number datetime : Type}.
Variable str : number → string.
Variable strftime_Y_m_d : datetime → string.
Variable minus_200_years : datetime → datetime.

Definition build_api_url (latitude longitude radius minimum_magnitude : number)
    (end_date : datetime) : string :=
  let st_date := minus_200_years end_date in
  let st_date := strftime_Y_m_d st_date in
  let end_date := strftime_Y_m_d end_date in
  let minimum_magnitude := str minimum_magnitude in
  let radius := str radius in
  let latitude := str latitude in
  let longitude := str longitude in
  usgs_page +:+ "&starttime=" +:+ st_date +:+ "&endtime=" +:+ end_date
    +:+ "&minmagnitude=" +:+ minimum_magnitude
    +:+ "&latitude=" +:+ latitude +:+ "&longitude=" +:+ longitude
    +:+ "&maxradiuskm=" +:+ radius.

End ApiUrl.

(** Reading a URL back: the text is cut at every occurrence of a
    separator, and a [key=value] item at its first [=]. *)
Fixpoint has_char (c : ascii) (s : string) : bool :=
  match s with
  | EmptyString => false
  | String c' s' => bool_decide (c' = c) || has_char c s'
  end.

Fixpoint split_on (sep : ascii) (s : string) : list string :=
  match s with
  | EmptyString => [EmptyString]
  | String c s' =>
      if bool_decide (c = sep) then EmptyString :: split_on sep s'
      else match split_on sep s' with
           | seg :: segs => String c seg :: segs
           | [] => [String c EmptyString]
           end
  end.

(** A text cut at its first separator, if it has one. *)
Fixpoint cut_at (sep : ascii) (s : string) : string * option string :=
  match s with
  | EmptyString => (EmptyString, None)
  | String c s' =>
      if bool_decide (c = sep) then (EmptyString, Some s')
      else let '(before, after) := cut_at sep s' in (String c before, after)
  end.

Definition key_value (item : string) : string * string :=
  let '(key, value) := cut_at "=" item in (key, default EmptyString value).

(** The path of a URL and the items of its query string. *)
Definition url_query (url : string)
  : option (string * list (string * string)) :=
  match split_on "?" url with
  | [path; query] => Some (path, key_value <$> split_on "&" query)
  | _ => None
  end.

(** Texts put one after the other with a separator in between. *)
Fixpoint join_with (sep : ascii) (items : list string) : string :=
  match items with
  | [] => EmptyString
  | [item] => item
  | item :: items' => item +:+ String sep (join_with sep items')
  end.

(** A text that holds neither [&] nor [?]. *)
Definition plain (s : string) : Prop :=
  has_char "&" s = false ∧ has_char "?" s = false.

(** ** Years as they print

    The first four characters of a time stamp such as
    [2001-03-01T10:00:00.000Z]: the year on four decimal digits. *)

Definition digit_char (d : Z) : ascii :=
  ascii_of_N (Z.to_N (48 + d)).

Definition four_digits (y : Z) : string :=
  String (digit_char (y / 1000))
    (String (digit_char (y / 100 mod 10))
       (String (digit_char (y / 10 mod 10))
          (String (digit_char (y mod 10)) EmptyString))).

(** ** Further vocabulary *)

(** A text of ASCII characters only, for which the characters of Python
    and the bytes of the text are the same and [PyInt.int] is [int]. *)
Definition is_ascii (s : string) : Prop :=
  Forall (λ c, (N_of_ascii c < 128)%N) (list_ascii_of_string s).

(** Sample data: a catalogue whose second time is not a date. *)
Definition malformed_events : list event :=
  [Event "20010615" (Qc_of_Z 6) (Qc_of_Z 50);
   Event "n/a" (Qc_of_Z 6) (Qc_of_Z 50)].


(** The larger of two amounts. *)
Definition Qc_max (a b : Qc) : Qc :=
  if bool_decide (a < b)%Qc then b else a.

(** Two yearly dictionaries merged year by year, a year present in both
    holding the larger of its two amounts. *)
Definition merge_payouts (m1 m2 : gmap Z Qc) : gmap Z Qc :=
  union_with (λ a b, Some (Qc_max a b)) m1 m2.

(** Sample data: a catalogue with a repeated row, in another order. *)
Definition shuffled_events : list event :=
  [Event "1999-01-02T00:00:00.000Z" (Qc_of_Z 3) (Qc_of_Z 500);
   Event "2001-09-17T04:30:00.000Z" (Qc_of_Z 7) (Qc_of_Z 20);
   Event "2001-03-01T10:00:00.000Z" (Qc_of_Z 5) (Qc_of_Z 80);
   Event "2001-09-17T04:30:00.000Z" (Qc_of_Z 7) (Qc_of_Z 20)].

(** The value handed to [np.arcsin]: [np.sqrt(a)], from the arguments in
    degrees. *)
Definition arcsin_argument {F : Type} `{Arith F} (lats lons lat0 lon0 : F)
  : F :=
  np_sqrt (haversine_a (to_radians lats) (to_radians lons)
                       (to_radians lat0) (to_radians lon0)).

(** ** The aggregator in the arithmetic of the array

    [np.asarray(burn).sum()] adds in the arithmetic of the dtype of the
    array: int64 wraps around, float64 rounds, Python integers in an object
    array are exact; and numpy chooses the order and the grouping of the
    additions.  The quotient [sum / (end_year - start_year + 1)] is numpy's
    true division.  [compute_burning_cost] above is the reading in exact
    numbers; here the function is written over any such arithmetic, and
    over the dictionary as Python keeps it: the items in insertion order,
    with distinct keys. *)

Class Dtype (V F : Type) := {
  dzero : V;
  dadd : V → V → V;
  true_divide : V → Z → F
}.

(** [sum_of l v]: [v] results from adding up the elements of [l] in some
    order and grouping, zeros of the dtype possibly added in. *)
Inductive sum_of {V F : Type} `{Dtype V F} : list V → V → Prop :=
  | sum_of_nil : sum_of [] dzero
  | sum_of_one x : sum_of [x] x
  | sum_of_app l1 l2 v1 v2 :
      sum_of l1 v1 → sum_of l2 v2 → sum_of (l1 ++ l2) (dadd v1 v2)
  | sum_of_perm l l' v : l ≡ₚ l' → sum_of l v → sum_of l' v.

(** Arithmetics in which the order and the grouping of a sum are
    immaterial: exact numbers and wrap-around integers, not float64. *)
Class DtypeExact (V F : Type) `{Dtype V F} : Prop := {
  dadd_comm : ∀ x y : V, dadd x y = dadd y x;
  dadd_assoc : ∀ x y z : V, dadd x (dadd y z) = dadd (dadd x y) z;
  dadd_zero_l : ∀ x : V, dadd dzero x = x
}.

(** Arithmetics with a notion of non-negative amount that addition and
    the division by a positive length preserve: exact numbers and float64,
    not wrap-around integers. *)
Class DtypeSigned (V F : Type) `{Dtype V F} := {
  nonneg : V → Prop;
  nonneg_quotient : F → Prop;
  nonneg_dzero : nonneg dzero;
  nonneg_dadd : ∀ x y : V, nonneg x → nonneg y → nonneg (dadd x y);
  nonneg_true_divide :
    ∀ (v : V) (n : Z), nonneg v → (0 < n)%Z → nonneg_quotient (true_divide v n)
}.

Section Aggregator.
Context {V F : Type} `{Dtype V F}.

(** [np.asarray(burn).sum()], whatever numpy's algorithm. *)
Variable array_sum : list V → V.

(** The list [burn] after the loop over [list(payouts.keys())], in the
    insertion order of the dictionary. *)
Definition burn_items (payouts : list (Z * V)) (start_year end_year : Z)
  : list V :=
  (filter (λ kv, in_range start_year end_year kv.1 = true) payouts).*2.

Definition compute_burning_cost_dtype (payouts : list (Z * V))
    (start_year end_year : Z) : option F :=
  let burn := burn_items payouts start_year end_year in
  if (length burn <? 1)%nat then None
  else Some (true_divide (array_sum burn) (end_year - start_year + 1)).

(** [payouts[year]], if [year] is a key. *)
Definition dict_get (payouts : list (Z * V)) (year : Z) : option V :=
  (list_to_map payouts : gmap Z V) !! year.

(** The payouts of the mapping's years inside the interval, by ascending
    year. *)
Definition selected_by_year (payouts : list (Z * V))
    (start_year end_year : Z) : list V :=
  omap (dict_get payouts) (interval_years start_year end_year).

(** Their sum, taken year after year. *)
Definition total_by_year (payouts : list (Z * V))
    (start_year end_year : Z) : V :=
  foldr dadd dzero (selected_by_year payouts start_year end_year).

(** The additions done one after the other from the zero of the dtype. *)
Definition sequential_sum (l : list V) : V := fold_left dadd l dzero.

End Aggregator.

(** *** Exact numbers *)

#[export] Instance exact_dtype : Dtype Qc Qc := {|
  dzero := Qc_of_Z 0;
  dadd := Qcplus;
  true_divide v n := (v / Qc_of_Z n)%Qc
|}.

(** *** The dtype int64, with a float64 quotient *)

Definition int64_ok (z : Z) : bool := bool_decide (- 2 ^ 63 ≤ z < 2 ^ 63).

(** The representative in [[-2^63, 2^63)] of an integer modulo [2^64]. *)
Definition wrap64 (z : Z) : Z := (z + 2 ^ 63) `mod` 2 ^ 64 - 2 ^ 63.

Lemma wrap64_ok (z : Z) : int64_ok (wrap64 z).
Proof.
  unfold int64_ok, wrap64. apply bool_decide_pack.
  pose proof (Z.mod_pos_bound (z + 2 ^ 63) (2 ^ 64)). lia.
Qed.

Definition int64 : Type := { z : Z | int64_ok z }.

Definition int64_of_Z (z : Z) : int64 := wrap64 z ↾ wrap64_ok z.

(** Addition of int64 wraps around. *)
Definition int64_add (a b : int64) : int64 := int64_of_Z (`a + `b).

(** The float64 nearest to an integer of [[-2^63, 2^63]]. *)
Definition float64_of_Z (z : Z) : PrimFloat.float :=
  let m := Z.abs z in
  let f :=
    if (m =? 2 ^ 63)%Z
    then PrimFloat.mul (PrimFloat.of_uint63 (Uint63.of_Z (2 ^ 62)))
                       (PrimFloat.of_uint63 (Uint63.of_Z 2))
    else PrimFloat.of_uint63 (Uint63.of_Z m) in
  if (z <? 0)%Z then PrimFloat.opp f else f.

(** [np.int64 / int]: both operands become float64, then are divided. *)
#[export] Instance int64_dtype : Dtype int64 PrimFloat.float := {|
  dzero := int64_of_Z 0;
  dadd := int64_add;
  true_divide v n := PrimFloat.div (float64_of_Z (`v)) (float64_of_Z n)
|}.

(** Payouts [{2000: 100, 2001: 0}] as int64, in insertion order. *)
Definition denominator_items : list (Z * int64) :=
  [(2000, int64_of_Z 100); (2001, int64_of_Z 0)].

(** Two payouts of [2^62], whose int64 sum wraps around to [-2^63]. *)
Definition wrapping_items : list (Z * int64) :=
  [(2000, int64_of_Z (2 ^ 62)); (2001, int64_of_Z (2 ^ 62))].

(** The same mapping with another insertion order and a year outside the
    interval. *)
Definition reordered_items : list (Z * int64) :=
  [(2001, int64_of_Z 0); (1950, int64_of_Z 700); (2000, int64_of_Z 100)].

(** Payouts [{2000: 100, 2001: 0}] in exact numbers. *)
Definition exact_items : list (Z * Qc) :=
  [(2000, Qc_of_Z 100); (2001, Qc_of_Z 0)].

(** * Properties *)

Local Open Scope Qc_scope.

(** ** The scan of the schedule for one event *)

Section EventPayout.
Variables (mg dist : Qc).

Lemma qualifying_payouts_cons (b : band) (l : list band) :
  qualifying_payouts (b :: l) mg dist =
  if qualifies mg dist b then Payout b :: qualifying_payouts l mg dist
  else qualifying_payouts l mg dist.
Proof.
  unfold qualifying_payouts. rewrite filter_cons.
  destruct (qualifies mg dist b) eqn:Hq; case_decide; done.
Qed.

Lemma scan_band_ge (p : Qc) (b : band) : p ≤ scan_band mg dist p b.
Proof.
  unfold scan_band. destruct (qualifies mg dist b); [|apply Qcle_refl].
  case_bool_decide; [by apply Qclt_le_weak|apply Qcle_refl].
Qed.

Lemma scan_band_reached (p : Qc) (b : band) :
  qualifies mg dist b = true → Payout b ≤ scan_band mg dist p b.
Proof.
  intros Hq. unfold scan_band. rewrite Hq.
  case_bool_decide as Hlt; [apply Qcle_refl|by apply Qcnot_lt_le].
Qed.

(** The loop invariant, from any starting amount [p0]: the amount held
    after the scan is [p0] or a qualifying payout, and bounds them all. *)
Lemma scan_schedule_spec (l : list band) (p0 : Qc) :
  let r := fold_left (scan_band mg dist) l p0 in
  (r = p0 ∨ r ∈ qualifying_payouts l mg dist) ∧
  p0 ≤ r ∧
  (∀ x, x ∈ qualifying_payouts l mg dist → x ≤ r).
Proof.
  revert p0. induction l as [|b l IH]; intros p0; simpl.
  - split; [by left|]. split; [apply Qcle_refl|].
    intros x Hx. by apply elem_of_nil in Hx.
  - destruct (IH (scan_band mg dist p0 b)) as (Hmem & Hge & Hub).
    pose proof (scan_band_ge p0 b) as Hstep.
    rewrite qualifying_payouts_cons.
    split; [|split].
    + destruct Hmem as [Heq|Hin].
      * rewrite Heq. unfold scan_band.
        destruct (qualifies mg dist b); [|by left].
        case_bool_decide; [right; apply list_elem_of_here|by left].
      * right. destruct (qualifies mg dist b); [by apply list_elem_of_further|done].
    + by eapply Qcle_trans.
    + intros x Hx.
      destruct (qualifies mg dist b) eqn:Hq; [|by apply Hub].
      apply elem_of_cons in Hx as [->|Hx]; [|by apply Hub].
      eapply Qcle_trans; [|exact Hge]. by apply scan_band_reached.
Qed.

Lemma event_payout_nonneg (l : list band) :
  Qc_of_Z 0 ≤ event_payout l mg dist.
Proof. by destruct (scan_schedule_spec l (Qc_of_Z 0)) as (_ & Hge & _). Qed.

Lemma event_payout_max_with_zero (l : list band) :
  is_max_of (Qc_of_Z 0 :: qualifying_payouts l mg dist)
            (event_payout l mg dist).
Proof.
  destruct (scan_schedule_spec l (Qc_of_Z 0)) as (Hmem & Hge & Hub).
  split.
  - destruct Hmem as [Heq|Hin].
    + unfold event_payout. rewrite Heq. apply list_elem_of_here.
    + by apply list_elem_of_further.
  - intros x [->|Hx]%elem_of_cons; [done|by apply Hub].
Qed.

Lemma event_payout_no_band (l : list band) :
  qualifying_payouts l mg dist = [] →
  event_payout l mg dist = Qc_of_Z 0.
Proof.
  intros Hq. destruct (scan_schedule_spec l (Qc_of_Z 0)) as (Hmem & _).
  rewrite Hq in Hmem. destruct Hmem as [Heq|Hin]; [done|].
  by apply elem_of_nil in Hin.
Qed.
End EventPayout.

Lemma qualifies_true (mg dist : Qc) (b : band) :
  qualifies mg dist b = true ↔ dist ≤ Radius b ∧ Magnitude b ≤ mg.
Proof.
  unfold qualifies. rewrite andb_true_iff, !bool_decide_eq_true. done.
Qed.

(** A band that an event reaches is still reached by an event that is at
    least as strong and at least as close. *)
Lemma qualifies_mono (mg mg' dist dist' : Qc) (b : band) :
  mg ≤ mg' → dist' ≤ dist →
  qualifies mg dist b = true → qualifies mg' dist' b = true.
Proof.
  rewrite !qualifies_true. intros Hm Hd [Hr Ht].
  split; eapply Qcle_trans; eauto.
Qed.

Lemma qualifying_payouts_mono (l : list band) (mg mg' dist dist' : Qc) :
  mg ≤ mg' → dist' ≤ dist →
  ∀ x, x ∈ qualifying_payouts l mg dist → x ∈ qualifying_payouts l mg' dist'.
Proof.
  intros Hm Hd x. unfold qualifying_payouts.
  rewrite !list_elem_of_fmap. intros (b & -> & Hb).
  exists b. split; [done|].
  apply list_elem_of_filter in Hb as [Hq Hb].
  apply list_elem_of_filter. split; [|done].
  by eapply qualifies_mono.
Qed.

Lemma event_payout_mono (l : list band) (mg mg' dist dist' : Qc) :
  mg ≤ mg' → dist' ≤ dist →
  event_payout l mg dist ≤ event_payout l mg' dist'.
Proof.
  intros Hm Hd.
  destruct (event_payout_max_with_zero mg dist l) as [Hin _].
  destruct (event_payout_max_with_zero mg' dist' l) as [_ Hub].
  apply Hub. apply elem_of_cons in Hin as [->|Hin].
  - apply list_elem_of_here.
  - apply list_elem_of_further. by eapply qualifying_payouts_mono.
Qed.

(** ** Reading the year of an event *)

Example event_year_iso :
  event_year (Event "2001-03-01T10:00:00.000Z" (Qc_of_Z 5) (Qc_of_Z 80))
  = Some 2001%Z.
Proof. reflexivity. Qed.

Example event_year_compact :
  event_year (Event "20010615" (Qc_of_Z 6) (Qc_of_Z 50)) = Some 2001%Z.
Proof. reflexivity. Qed.

(** [int("n/a ")] raises [ValueError]. *)
Example event_year_malformed :
  event_year (Event "n/a 2001" (Qc_of_Z 6) (Qc_of_Z 50)) = None.
Proof. reflexivity. Qed.

(** [int(" 201")] is 201: surrounding white space is stripped. *)
Example event_year_padded :
  event_year (Event " 2010-01-01" (Qc_of_Z 6) (Qc_of_Z 50)) = Some 201%Z.
Proof. reflexivity. Qed.

(** A catalogue with a malformed row makes [compute_payouts] raise. *)
Example compute_payouts_malformed :
  compute_payouts
    (scenario_events ++ [Event "n/a" (Qc_of_Z 6) (Qc_of_Z 50)])
    scenario_schedule = None.
Proof. vm_compute. reflexivity. Qed.

(** ** The yearly dictionary *)

Lemma record_payout_lookup (m : gmap Z Qc) (y y' : Z) (p : Qc) :
  record_payout m y p !! y' =
  if decide (y = y') then Some (keep_larger (m !! y) p) else m !! y'.
Proof.
  unfold record_payout, keep_larger.
  destruct (m !! y) as [old|] eqn:Hy.
  - case_bool_decide; case_decide; simplify_map_eq; done.
  - case_decide; simplify_map_eq; done.
Qed.

Lemma events_of_year_cons (y : Z) (ev : event) (evs : list event) :
  events_of_year y (ev :: evs) =
  if decide (event_year ev = Some y) then ev :: events_of_year y evs
  else events_of_year y evs.
Proof. unfold events_of_year. by rewrite filter_cons. Qed.

Lemma elem_of_events_of_year (y : Z) (ev : event) (evs : list event) :
  ev ∈ events_of_year y evs ↔ ev ∈ evs ∧ event_year ev = Some y.
Proof. unfold events_of_year. rewrite list_elem_of_filter. tauto. Qed.

(** The loop, read one year at a time: the entry of year [y] in the
    returned dictionary is the starting entry after the events of [y] have
    been offered to it in catalogue order. *)
Lemma payouts_loop_lookup (sched : list band) (evs : list event) :
  ∀ (m m' : gmap Z Qc) (y : Z),
    payouts_loop sched m evs = Some m' →
    m' !! y = yearly_value sched (m !! y) (events_of_year y evs).
Proof.
  induction evs as [|ev evs IH]; intros m m' y Hrun; simpl in Hrun.
  - by simplify_eq.
  - unfold process_event in Hrun.
    destruct (event_year ev) as [y0|] eqn:Hy0; simpl in Hrun; [|done].
    rewrite (IH _ _ y Hrun), record_payout_lookup, events_of_year_cons, Hy0.
    destruct (decide (y0 = y)) as [->|Hne].
    + by rewrite decide_True.
    + rewrite decide_False; [done|congruence].
Qed.

(** The loop raises exactly when the year of some event does not parse. *)
Lemma payouts_loop_returns (sched : list band) (evs : list event) :
  ∀ m : gmap Z Qc,
    is_Some (payouts_loop sched m evs) ↔
    Forall (λ ev, is_Some (event_year ev)) evs.
Proof.
  induction evs as [|ev evs IH]; intros m; simpl.
  - split; [constructor|eauto].
  - rewrite Forall_cons. unfold process_event.
    destruct (event_year ev) as [y0|]; simpl.
    + rewrite IH. split; [eauto|tauto].
    + split; [by intros [? ?]|by intros [[? ?] _]].
Qed.

Lemma compute_payouts_returns (evs : list event) (sched : list band) :
  is_Some (compute_payouts evs sched) ↔
  Forall (λ ev, is_Some (event_year ev)) evs.
Proof. apply payouts_loop_returns. Qed.

Lemma yearly_value_spec (sched : list band) (evs : list event) :
  ∀ o : option Qc,
    match yearly_value sched o evs with
    | Some v =>
        (o = Some v ∨ v ∈ payout_of sched <$> evs) ∧
        (∀ old, o = Some old → old ≤ v) ∧
        (∀ x, x ∈ payout_of sched <$> evs → x ≤ v)
    | None => o = None ∧ evs = []
    end.
Proof.
  induction evs as [|ev evs IH]; intros o; simpl.
  - destruct o as [v|]; [|done].
    split; [by left|]. split.
    + intros old [= ->]. apply Qcle_refl.
    + intros x Hx. by apply elem_of_nil in Hx.
  - specialize (IH (Some (keep_larger o (payout_of sched ev)))).
    unfold yearly_value in IH |- *. simpl.
    destruct (fold_left _ evs _) as [v|]; [|by destruct IH].
    destruct IH as (Hmem & Hold & Hub).
    specialize (Hold _ eq_refl).
    assert (payout_of sched ev ≤ keep_larger o (payout_of sched ev)) as Hp.
    { unfold keep_larger. destruct o as [old|]; [|apply Qcle_refl].
      case_bool_decide; [apply Qcle_refl|by apply Qcnot_lt_le]. }
    split; [|split].
    + destruct Hmem as [[= Hv]|Hin]; [|right; by apply list_elem_of_further].
      unfold keep_larger in Hv. destruct o as [old|].
      * case_bool_decide; [right; rewrite <- Hv; apply list_elem_of_here|].
        left. by rewrite Hv.
      * right. rewrite <- Hv. apply list_elem_of_here.
    + intros old ->. eapply Qcle_trans; [|exact Hold].
      simpl. case_bool_decide; [by apply Qclt_le_weak|apply Qcle_refl].
    + intros x [->|Hx]%elem_of_cons; [by eapply Qcle_trans|by apply Hub].
Qed.

(** A year of the returned dictionary holds the maximum per-event payout
    of its events; a year without events has no entry. *)
Lemma compute_payouts_lookup (evs : list event) (sched : list band)
    (m : gmap Z Qc) (y : Z) :
  compute_payouts evs sched = Some m →
  match m !! y with
  | Some v => is_max_of (payout_of sched <$> events_of_year y evs) v
  | None => events_of_year y evs = []
  end.
Proof.
  intros Hrun. rewrite (payouts_loop_lookup _ _ _ _ y Hrun), lookup_empty.
  pose proof (yearly_value_spec sched (events_of_year y evs) None) as Hspec.
  destruct (yearly_value _ _ _) as [v|]; [|by destruct Hspec].
  destruct Hspec as ([?|Hin] & _ & Hub); [done|]. by split.
Qed.

Lemma yearly_payout_is_max_aux (evs : list event) (sched : list band)
    (m : gmap Z Qc) (y : Z) (v : Qc) :
  compute_payouts evs sched = Some m →
  m !! y = Some v →
  is_max_of (payout_of sched <$> events_of_year y evs) v.
Proof.
  intros Hrun Hv. pose proof (compute_payouts_lookup _ _ _ y Hrun) as Hy.
  by rewrite Hv in Hy.
Qed.

(** ** The payout engine: the claims *)

(** The scan on any schedule, negative amounts included: the per-event
    payout is the maximum of 0 and the payouts of the bands whose radius is
    at least the event's distance and whose magnitude threshold is at most
    the event's magnitude. *)
Lemma event_payout_is_max_with_zero (sched : list band) (mg dist : Qc) :
  let q := qualifying_payouts sched mg dist in
  let p := event_payout sched mg dist in
  is_max_of (Qc_of_Z 0 :: q) p ∧
  (q = [] → p = Qc_of_Z 0) ∧
  Qc_of_Z 0 ≤ p ∧
  (q ≠ [] → (∀ x, x ∈ q → Qc_of_Z 0 ≤ x) → is_max_of q p).
Proof.
  simpl. pose proof (event_payout_max_with_zero mg dist sched) as [Hin Hub].
  split; [by split|]. split; [apply event_payout_no_band|].
  split; [apply event_payout_nonneg|].
  intros Hne Hpos. split.
  - apply elem_of_cons in Hin as [Hz|Hin]; [|done].
    destruct (qualifying_payouts sched mg dist) as [|x q] eqn:Hq; [done|].
    assert (x = event_payout sched mg dist) as <-.
    { apply Qcle_antisym.
      - apply Hub. apply list_elem_of_further, list_elem_of_here.
      - rewrite Hz. apply Hpos, list_elem_of_here. }
    apply list_elem_of_here.
  - intros x Hx. by apply Hub, list_elem_of_further.
Qed.

(** C2: for every event and every schedule of the data model, whose
    payouts are non-negative, the per-event payout is the maximum payout
    over the bands whose radius is at least the event's distance and whose
    magnitude threshold is at most the event's magnitude (both conditions
    required); it is 0 when no band qualifies, and never negative. *)
Theorem event_payout_is_max_of_qualifying (sched : list band)
    (mg dist : Qc) :
  (∀ b, b ∈ sched → Qc_of_Z 0 ≤ Payout b) →
  event_payout_as_specified sched mg dist.
Proof.
  intros Hdata. unfold event_payout_as_specified. simpl.
  pose proof (event_payout_max_with_zero mg dist sched) as [Hin Hub].
  split; [|split; [apply event_payout_no_band|apply event_payout_nonneg]].
  intros Hne. split; [|intros x Hx; by apply Hub, list_elem_of_further].
  apply elem_of_cons in Hin as [Hz|Hin]; [|done].
  destruct (qualifying_payouts sched mg dist) as [|x q] eqn:Hq; [done|].
  assert (Qc_of_Z 0 ≤ x) as Hx.
  { assert (x ∈ qualifying_payouts sched mg dist) as Hxq
      by (rewrite Hq; apply list_elem_of_here).
    unfold qualifying_payouts in Hxq.
    apply list_elem_of_fmap in Hxq as (b & -> & Hb).
    apply list_elem_of_filter in Hb as [_ Hb]. by apply Hdata. }
  assert (x = event_payout sched mg dist) as <-.
  { apply Qcle_antisym; [|by rewrite Hz].
    apply Hub, list_elem_of_further, list_elem_of_here. }
  apply list_elem_of_here.
Qed.

(** The end-to-end scenario: the event of magnitude 6 at distance 50
    reaches the first band only and is paid its 500. *)
Lemma event_payout_is_max_of_qualifying_witness :
  (∀ b, b ∈ scenario_schedule → Qc_of_Z 0 ≤ Payout b) ∧
  event_payout_as_specified scenario_schedule (Qc_of_Z 6) (Qc_of_Z 50) ∧
  qualifying_payouts scenario_schedule (Qc_of_Z 6) (Qc_of_Z 50)
    = [Qc_of_Z 500] ∧
  event_payout scenario_schedule (Qc_of_Z 6) (Qc_of_Z 50) = Qc_of_Z 500.
Proof.
  assert (∀ b, b ∈ scenario_schedule → Qc_of_Z 0 ≤ Payout b) as Hdata.
  { intros b Hb. unfold scenario_schedule in Hb.
    apply elem_of_cons in Hb as [->|Hb]; [done|].
    apply list_elem_of_singleton in Hb as ->. done. }
  split; [exact Hdata|].
  split; [exact (event_payout_is_max_of_qualifying _ _ _ Hdata)|].
  split; vm_compute; reflexivity.
Defined.

(** C3: the value recorded for a calendar year is the maximum per-event
    payout over the events of that year (a member of their payouts that
    bounds them all), not their sum. *)
Theorem yearly_payout_is_max (evs : list event) (sched : list band)
    (m : gmap Z Qc) (y : Z) (v : Qc) :
  compute_payouts evs sched = Some m →
  m !! y = Some v →
  is_max_of (payout_of sched <$> events_of_year y evs) v.
Proof. apply yearly_payout_is_max_aux. Qed.

(** Two events of 2001 triggering 100 and 300: the year holds 300. *)
Lemma yearly_payout_is_max_witness :
  compute_payouts same_year_events same_year_schedule
    = Some same_year_payouts ∧
  same_year_payouts !! 2001%Z = Some (Qc_of_Z 300) ∧
  payout_of same_year_schedule <$> events_of_year 2001 same_year_events
    = [Qc_of_Z 100; Qc_of_Z 300] ∧
  is_max_of
    (payout_of same_year_schedule <$> events_of_year 2001 same_year_events)
    (Qc_of_Z 300).
Proof.
  split; [vm_compute; reflexivity|].
  split; [vm_compute; reflexivity|].
  split; [vm_compute; reflexivity|].
  apply (yearly_payout_is_max same_year_events same_year_schedule
           same_year_payouts 2001); vm_compute; reflexivity.
Defined.

(** C5: every year of an event is a key of the returned dictionary; its
    value is 0 when none of the year's events qualifies for a band; and an
    event whose year already holds [old] replaces it by its own payout
    exactly when that payout is strictly greater, leaving the dictionary
    as it is otherwise. *)
Theorem every_year_recorded (evs : list event) (sched : list band)
    (m : gmap Z Qc) :
  compute_payouts evs sched = Some m →
  (∀ ev, ev ∈ evs → ∃ y, event_year ev = Some y ∧ is_Some (m !! y)) ∧
  (∀ y, events_of_year y evs ≠ [] →
        (∀ ev, ev ∈ events_of_year y evs →
               qualifying_payouts sched (mag ev) (distance ev) = []) →
        m !! y = Some (Qc_of_Z 0)) ∧
  (∀ (m0 : gmap Z Qc) ev y old,
     event_year ev = Some y → m0 !! y = Some old →
     process_event sched m0 ev =
     Some (if bool_decide (old < payout_of sched ev)
           then <[y := payout_of sched ev]> m0 else m0)).
Proof.
  intros Hrun. split; [|split].
  - intros ev Hev.
    assert (is_Some (event_year ev)) as [y Hy].
    { assert (is_Some (compute_payouts evs sched)) as Hsome by eauto.
      apply compute_payouts_returns in Hsome.
      by eapply Forall_forall in Hsome. }
    exists y. split; [done|].
    pose proof (compute_payouts_lookup _ _ _ y Hrun) as Hl.
    destruct (m !! y) as [v|]; [eauto|].
    assert (ev ∈ events_of_year y evs) as Hin
      by by apply elem_of_events_of_year.
    rewrite Hl in Hin. by apply elem_of_nil in Hin.
  - intros y Hne Hnone.
    pose proof (compute_payouts_lookup _ _ _ y Hrun) as Hl.
    destruct (m !! y) as [v|]; [|done].
    destruct Hl as [Hin _].
    apply list_elem_of_fmap in Hin as (ev & -> & Hev).
    f_equal. apply event_payout_no_band. by apply Hnone.
  - intros m0 ev y old Hy Hold. unfold process_event, record_payout.
    rewrite Hy. simpl. by rewrite Hold.
Qed.

(** The third event of [same_year_events], of 1999, reaches no band: 1999
    is a key with value 0. *)
Lemma every_year_recorded_witness :
  compute_payouts same_year_events same_year_schedule
    = Some same_year_payouts ∧
  same_year_payouts !! 1999%Z = Some (Qc_of_Z 0) ∧
  (∀ ev, ev ∈ same_year_events →
         ∃ y, event_year ev = Some y ∧ is_Some (same_year_payouts !! y)).
Proof.
  assert (compute_payouts same_year_events same_year_schedule
          = Some same_year_payouts) as Hrun by (vm_compute; reflexivity).
  split; [exact Hrun|].
  destruct (every_year_recorded _ _ _ Hrun) as (Hkeys & Hzero & _).
  split; [|exact Hkeys].
  apply Hzero.
  - vm_compute. discriminate.
  - intros ev Hev.
    assert (events_of_year 1999 same_year_events
            = [Event "1999-01-02T00:00:00.000Z" (Qc_of_Z 3) (Qc_of_Z 500)])
      as Hy by (vm_compute; reflexivity).
    rewrite Hy in Hev. apply list_elem_of_singleton in Hev as ->.
    vm_compute. reflexivity.
Defined.

(** C7: for a fixed schedule, raising the magnitude of an event at a fixed
    distance never lowers its per-event payout, and neither does bringing
    it closer at a fixed magnitude. *)
Theorem event_payout_monotone (sched : list band) (mg mg' dist dist' : Qc) :
  (mg ≤ mg' → event_payout sched mg dist ≤ event_payout sched mg' dist) ∧
  (dist' ≤ dist → event_payout sched mg dist ≤ event_payout sched mg dist').
Proof.
  split; intros Hle.
  - apply event_payout_mono; [done|apply Qcle_refl].
  - apply event_payout_mono; [apply Qcle_refl|done].
Qed.

(** C10: every value of the returned dictionary is non-negative, whatever
    the signs of the amounts in the schedule. *)
Theorem yearly_payouts_nonneg (evs : list event) (sched : list band)
    (m : gmap Z Qc) (y : Z) (v : Qc) :
  compute_payouts evs sched = Some m →
  m !! y = Some v →
  Qc_of_Z 0 ≤ v.
Proof.
  intros Hrun Hv.
  destruct (yearly_payout_is_max_aux evs sched m y v Hrun Hv) as [Hin _].
  apply list_elem_of_fmap in Hin as (ev & -> & _).
  apply event_payout_nonneg.
Qed.

(** With the only band carrying -10, the reached event still records 0. *)
Lemma yearly_payouts_nonneg_witness :
  compute_payouts reached_events negative_schedule
    = Some {[ 2001%Z := Qc_of_Z 0 ]} ∧
  ({[ 2001%Z := Qc_of_Z 0 ]} : gmap Z Qc) !! 2001%Z = Some (Qc_of_Z 0) ∧
  Qc_of_Z 0 ≤ Qc_of_Z 0.
Proof.
  split; [vm_compute; reflexivity|].
  split; [vm_compute; reflexivity|].
  apply (yearly_payouts_nonneg reached_events negative_schedule
           {[ 2001%Z := Qc_of_Z 0 ]} 2001); vm_compute; reflexivity.
Defined.

(** ** The burning cost aggregator *)

Lemma np_sum_cons (x : Qc) (l : list Qc) : np_sum (x :: l) = x + np_sum l.
Proof. reflexivity. Qed.

(** Exact sums do not depend on the order of the summands. *)
Lemma np_sum_Permutation (l1 l2 : list Qc) :
  l1 ≡ₚ l2 → np_sum l1 = np_sum l2.
Proof.
  induction 1 as [|x l1 l2 _ IH|x y l|l1 l2 l3 _ IH1 _ IH2].
  - done.
  - by rewrite !np_sum_cons, IH.
  - rewrite !np_sum_cons, !Qcplus_assoc. f_equal. apply Qcplus_comm.
  - congruence.
Qed.

Lemma in_range_spec (s e y : Z) : in_range s e y = true ↔ (s ≤ y ≤ e)%Z.
Proof. unfold in_range. rewrite andb_true_iff, !Z.leb_le. done. Qed.

Lemma elem_of_interval_years (s e y : Z) :
  y ∈ interval_years s e ↔ (s ≤ y ≤ e)%Z.
Proof. unfold interval_years. rewrite elem_of_seqZ. lia. Qed.

Lemma elem_of_burn_list (m : gmap Z Qc) (s e : Z) (x : Qc) :
  x ∈ burn_list m s e ↔ ∃ y, m !! y = Some x ∧ (s ≤ y ≤ e)%Z.
Proof.
  unfold burn_list. rewrite list_elem_of_fmap. split.
  - intros ([y x'] & -> & Hin). apply list_elem_of_filter in Hin as [Hr Hin].
    apply elem_of_map_to_list in Hin. apply in_range_spec in Hr. eauto.
  - intros (y & Hy & Hr). exists (y, x). split; [done|].
    apply list_elem_of_filter. split; [by apply in_range_spec|].
    by apply elem_of_map_to_list.
Qed.

(** [burn] stays empty exactly when no year of the mapping lies in the
    interval. *)
Lemma burn_list_nil (m : gmap Z Qc) (s e : Z) :
  burn_list m s e = [] ↔ ∀ y, is_Some (m !! y) → ¬ (s ≤ y ≤ e)%Z.
Proof.
  split.
  - intros Hnil y [x Hx] Hr.
    assert (x ∈ burn_list m s e) as Hin by (apply elem_of_burn_list; eauto).
    rewrite Hnil in Hin. by apply elem_of_nil in Hin.
  - intros Hno. destruct (burn_list m s e) as [|x l] eqn:Hb; [done|].
    assert (x ∈ burn_list m s e) as Hin by (rewrite Hb; apply list_elem_of_here).
    apply elem_of_burn_list in Hin as (y & Hy & Hr).
    destruct (Hno y); eauto.
Qed.

Lemma compute_burning_cost_None (m : gmap Z Qc) (s e : Z) :
  compute_burning_cost m s e = None ↔ burn_list m s e = [].
Proof.
  unfold compute_burning_cost.
  destruct (burn_list m s e) as [|x l]; simpl; [done|].
  split; discriminate.
Qed.

Lemma compute_burning_cost_Some (m : gmap Z Qc) (s e : Z) :
  burn_list m s e ≠ [] →
  compute_burning_cost m s e =
  Some (np_sum (burn_list m s e) / Qc_of_Z (e - s + 1)).
Proof.
  unfold compute_burning_cost.
  by destruct (burn_list m s e) as [|x l].
Qed.

Lemma burn_list_insert (m : gmap Z Qc) (s e i : Z) (x : Qc) :
  m !! i = None →
  np_sum (burn_list (<[i := x]> m) s e)
  = share s e i x + np_sum (burn_list m s e).
Proof.
  intros Hi. unfold burn_list.
  assert ((filter (λ kv, in_range s e kv.1 = true)
             (map_to_list (<[i := x]> m))).*2
          ≡ₚ (filter (λ kv, in_range s e kv.1 = true)
                ((i, x) :: map_to_list m)).*2) as Hperm
    by by rewrite map_to_list_insert.
  rewrite (np_sum_Permutation _ _ Hperm), filter_cons. unfold share. simpl.
  destruct (in_range s e i); case_decide; try done.
  by rewrite Z2Qc_inj_0, Qcplus_0_l.
Qed.

Lemma interval_sum_insert (m : gmap Z Qc) (i : Z) (x : Qc) (l : list Z) :
  NoDup l → m !! i = None →
  np_sum ((λ y, default (Qc_of_Z 0) (<[i := x]> m !! y)) <$> l)
  = (if bool_decide (i ∈ l) then x else Qc_of_Z 0)
    + np_sum ((λ y, default (Qc_of_Z 0) (m !! y)) <$> l).
Proof.
  intros Hnd Hi. induction Hnd as [|y l Hy Hnd IH].
  - simpl. by rewrite Z2Qc_inj_0, Qcplus_0_l.
  - rewrite !fmap_cons, !np_sum_cons, IH. destruct (decide (i = y)) as [->|Hne].
    + rewrite lookup_insert_eq, Hi. simpl.
      rewrite (bool_decide_true (y ∈ y :: l)) by apply list_elem_of_here.
      rewrite (bool_decide_false (y ∈ l)) by done.
      by rewrite !Z2Qc_inj_0, !Qcplus_0_l.
    + rewrite lookup_insert_ne by done.
      rewrite (bool_decide_ext (i ∈ y :: l) (i ∈ l))
        by (rewrite elem_of_cons; intuition congruence).
      rewrite !Qcplus_assoc. f_equal. apply Qcplus_comm.
Qed.

Lemma interval_total_insert (m : gmap Z Qc) (s e i : Z) (x : Qc) :
  m !! i = None →
  interval_total (<[i := x]> m) s e = share s e i x + interval_total m s e.
Proof.
  intros Hi. unfold interval_total.
  rewrite interval_sum_insert by (apply NoDup_seqZ || done).
  f_equal. unfold share.
  destruct (in_range s e i) eqn:Hr.
  - rewrite bool_decide_true; [done|].
    apply elem_of_interval_years. by apply in_range_spec.
  - rewrite bool_decide_false; [done|].
    rewrite elem_of_interval_years, <- in_range_spec. congruence.
Qed.

Lemma interval_total_empty (s e : Z) : interval_total ∅ s e = Qc_of_Z 0.
Proof.
  unfold interval_total.
  induction (interval_years s e) as [|y l IH]; [done|].
  rewrite fmap_cons, np_sum_cons, IH, lookup_empty. simpl.
  by rewrite Z2Qc_inj_0, Qcplus_0_l.
Qed.

(** The sum taken by the code over the keys of the mapping that lie in the
    interval is the sum, over the years of the interval, of what the
    mapping holds for each year. *)
Lemma np_sum_burn_list (m : gmap Z Qc) (s e : Z) :
  np_sum (burn_list m s e) = interval_total m s e.
Proof.
  induction m as [|i x m Hi IH] using map_ind.
  - rewrite interval_total_empty. unfold burn_list.
    by rewrite map_to_list_empty.
  - by rewrite burn_list_insert, interval_total_insert, IH.
Qed.

(** No year lies in an interval whose start is after its end. *)
Lemma burn_list_empty_interval (m : gmap Z Qc) (s e : Z) :
  (e < s)%Z → burn_list m s e = [].
Proof. intros Hlt. apply burn_list_nil. intros y _. lia. Qed.

(** ** The burning cost aggregator: the claims *)

(** C4: when no year of the mapping lies in the interval, the result is
    the no-data signal [None], which is not the number 0. *)
Theorem burning_cost_no_data (m : gmap Z Qc) (s e : Z) :
  (∀ y, is_Some (m !! y) → ¬ (s ≤ y ≤ e)%Z) →
  compute_burning_cost m s e = None ∧
  compute_burning_cost m s e ≠ Some (Qc_of_Z 0).
Proof.
  intros Hno.
  assert (compute_burning_cost m s e = None) as ->
    by by apply compute_burning_cost_None, burn_list_nil.
  done.
Qed.

(** Payouts [{2000: 100, 2001: 0}] over [[1900, 1901]]. *)
Lemma burning_cost_no_data_witness :
  (∀ y, is_Some (denominator_payouts !! y) → ¬ (1900 ≤ y ≤ 1901)%Z) ∧
  compute_burning_cost denominator_payouts 1900 1901 = None ∧
  compute_burning_cost denominator_payouts 1900 1901 ≠ Some (Qc_of_Z 0).
Proof.
  assert (∀ y, is_Some (denominator_payouts !! y) → ¬ (1900 ≤ y ≤ 1901)%Z)
    as Hno by (apply burn_list_nil; vm_compute; reflexivity).
  split; [exact Hno|].
  exact (burning_cost_no_data denominator_payouts 1900 1901 Hno).
Defined.

(** C9: when [start_year > end_year] the result is [None]; the division
    by the interval length, which is then zero or negative, is not
    reached. *)
Theorem burning_cost_empty_interval (m : gmap Z Qc) (s e : Z) :
  (s > e)%Z →
  burn_list m s e = [] ∧ compute_burning_cost m s e = None.
Proof.
  intros Hgt.
  assert (burn_list m s e = []) as Hnil
    by (apply burn_list_empty_interval; lia).
  split; [done|]. by apply compute_burning_cost_None.
Qed.

(** The interval [[2001, 2000]], of length 0, and [[2004, 2000]], of
    length -3, on a mapping that has the years 2000 and 2001. *)
Lemma burning_cost_empty_interval_witness :
  (2001 > 2000)%Z ∧
  (burn_list denominator_payouts 2001 2000 = [] ∧
   compute_burning_cost denominator_payouts 2001 2000 = None) ∧
  (2004 > 2000)%Z ∧
  (burn_list denominator_payouts 2004 2000 = [] ∧
   compute_burning_cost denominator_payouts 2004 2000 = None).
Proof.
  split; [lia|]. split.
  { apply (burning_cost_empty_interval denominator_payouts 2001 2000). lia. }
  split; [lia|].
  apply (burning_cost_empty_interval denominator_payouts 2004 2000). lia.
Defined.

(** Whenever the division is reached, the interval length is positive. *)
Lemma burning_cost_divides_by_positive (m : gmap Z Qc) (s e : Z) :
  compute_burning_cost m s e ≠ None → (0 < e - s + 1)%Z.
Proof.
  intros Hsome. destruct (decide (e < s)%Z) as [Hlt|Hge]; [|lia].
  destruct Hsome. by apply compute_burning_cost_None, burn_list_empty_interval.
Qed.

(** The end-to-end scenario of the specification: one event of 2001 that
    reaches the first band only. *)
Example scenario_payouts :
  compute_payouts scenario_events scenario_schedule
  = Some {[ 2001%Z := Qc_of_Z 500 ]}.
Proof. vm_compute. reflexivity. Qed.

Example scenario_burning_cost :
  compute_burning_cost {[ 2001%Z := Qc_of_Z 500 ]} 2001 2001
  = Some (Qc_of_Z 500).
Proof.
  rewrite compute_burning_cost_Some by (vm_compute; discriminate).
  apply (f_equal Some), Qc_is_canon. vm_compute. reflexivity.
Qed.

(** ** The distance calculator *)

Local Close Scope Qc_scope.

#[export] Instance R_ArithLaws : ArithLaws R.
Proof.
  split; simpl; intros.
  - apply Rmult_comm.
  - unfold Rminus. ring.
  - unfold Rdiv. ring.
  - apply sin_neg.
  - symmetry. apply Rsqr_neg.
Qed.

Section HaversineLaws.
Context {F : Type} `{ArithLaws F}.

(** The squared-sine sum does not change when the two points trade
    places. *)
Lemma haversine_a_swap (lat_a lon_a lat_b lon_b : F) :
  haversine_a lat_a lon_a lat_b lon_b = haversine_a lat_b lon_b lat_a lon_a.
Proof.
  unfold haversine_a. simpl.
  rewrite (fsub_swap lat_a lat_b), (fsub_swap lon_a lon_b).
  rewrite !fdiv_fneg, !np_sin_fneg, !fsquare_fneg.
  by rewrite (fmul_comm (np_cos lat_b) (np_cos lat_a)).
Qed.
End HaversineLaws.

(** C8: the great-circle distance is symmetric: the distance of point A
    from the reference point B is the distance of point B from the
    reference point A. *)
Theorem haversine_symmetric {F : Type} `{ArithLaws F}
    (lat_a lon_a lat_b lon_b : F) :
  get_haversine_distance lat_a lon_a lat_b lon_b
  = get_haversine_distance lat_b lon_b lat_a lon_a.
Proof.
  unfold get_haversine_distance. simpl. by rewrite haversine_a_swap.
Qed.

(** Paris and Tokyo, over the real numbers. *)
Lemma haversine_symmetric_witness :
  (get_haversine_distance 48.86 2.35 35.68 139.69
   = get_haversine_distance 35.68 139.69 48.86 2.35)%R.
Proof.
  exact (haversine_symmetric (F := R) 48.86%R 2.35%R 35.68%R 139.69%R).
Defined.

(** Over the real numbers the squared-sine sum lies in [[0, 1]] for all
    arguments, so that its square root is in the domain of the arcsine:
    only rounding can take it out of range. *)
Lemma haversine_a_range_R (lats lons lat0 lon0 : R) :
  (0 <= haversine_a lats lons lat0 lon0 <= 1)%R.
Proof.
  unfold haversine_a. simpl.
  pose proof (cos_2a_sin ((lats - lat0) / 2)) as Hhalf.
  replace (2 * ((lats - lat0) / 2))%R with (lats - lat0)%R in Hhalf by field.
  pose proof (cos_minus lats lat0) as Hminus.
  pose proof (cos_plus lats lat0) as Hplus.
  pose proof (COS_bound (lats + lat0)) as [Hlo Hhi].
  pose proof (COS_bound (lats - lat0)) as [Hlo' Hhi'].
  pose proof (sin2_cos2 ((lons - lon0) / 2)) as Hone.
  pose proof (Rle_0_sqr (sin ((lons - lon0) / 2))) as Hs.
  pose proof (Rle_0_sqr (cos ((lons - lon0) / 2))) as Hc.
  unfold Rsqr in *.
  set (S := (sin ((lats - lat0) / 2) * sin ((lats - lat0) / 2))%R) in *.
  set (T := (sin ((lons - lon0) / 2) * sin ((lons - lon0) / 2))%R) in *.
  set (A := (cos lat0 * cos lats)%R) in *.
  assert (A = ((cos (lats - lat0) + cos (lats + lat0)) / 2)%R) as HA
    by (unfold A; lra).
  assert (S = ((1 - cos (lats - lat0)) / 2)%R) as HS by (unfold S; lra).
  assert (0 <= T <= 1)%R as [HT0 HT1] by lra.
  rewrite HA, HS. split; nra.
Qed.

(** X16: the distance of a point from itself is 0 over the real
    numbers. *)
Lemma haversine_identity_R (lat lon : R) :
  get_haversine_distance lat lon lat lon = 0%R.
Proof.
  unfold get_haversine_distance, haversine_a, to_radians. simpl.
  rewrite !Rminus_diag. unfold Rdiv. rewrite !Rmult_0_l, sin_0.
  unfold Rsqr. rewrite !Rmult_0_r, Rplus_0_r, sqrt_0, asin_0. ring.
Qed.

(** * Further properties of the payout engine *)

Local Open Scope Qc_scope.

(** Order facts on [Qc], settled over [Q]. *)
Ltac qc_order :=
  repeat match goal with
         | H : ¬ (_ < _)%Qc |- _ => apply Qcnot_lt_le in H
         | H : ¬ (_ ≤ _)%Qc |- _ => apply Qcnot_le_lt in H
         end;
  try apply Qc_is_canon;
  unfold Qcle, Qclt in *; Lqa.lra.

Lemma is_max_of_unique (l l' : list Qc) (v v' : Qc) :
  (∀ x, x ∈ l ↔ x ∈ l') → is_max_of l v → is_max_of l' v' → v = v'.
Proof.
  intros Hsame [Hin Hub] [Hin' Hub'].
  apply Qcle_antisym; [apply Hub'|apply Hub]; by apply Hsame.
Qed.

Lemma compute_payouts_keys_aux (evs : list event) (sched : list band)
    (m : gmap Z Qc) (y : Z) :
  compute_payouts evs sched = Some m →
  is_Some (m !! y) ↔ ∃ ev, ev ∈ evs ∧ event_year ev = Some y.
Proof.
  intros Hrun. pose proof (compute_payouts_lookup _ _ _ y Hrun) as Hl.
  split.
  - intros [v Hv]. rewrite Hv in Hl. destruct Hl as [Hin _].
    apply list_elem_of_fmap in Hin as (ev & _ & Hev).
    apply elem_of_events_of_year in Hev. eauto.
  - intros (ev & Hev & Hy). destruct (m !! y) as [v|]; [eauto|].
    assert (ev ∈ events_of_year y evs) as Hin
      by by apply elem_of_events_of_year.
    rewrite Hl in Hin. by apply elem_of_nil in Hin.
Qed.

Lemma compute_payouts_None_aux (evs : list event) (sched : list band) :
  compute_payouts evs sched = None ↔ ∃ ev, ev ∈ evs ∧ event_year ev = None.
Proof.
  rewrite eq_None_not_Some, compute_payouts_returns.
  rewrite <- Exists_Forall_neg, Exists_exists
    by (intros ev; destruct (event_year ev); [left; eauto|right; by intros [??]]).
  split; intros (ev & Hev & Hy); exists ev; (split; [done|]).
  - destruct (event_year ev); [destruct Hy; eauto|done].
  - rewrite Hy. by intros [??].
Qed.

(** X1: the keys of the returned dictionary are exactly the years of the
    events: a year is a key if and only if some event falls in it. *)
Theorem payout_keys_are_event_years (evs : list event) (sched : list band)
    (m : gmap Z Qc) (y : Z) :
  compute_payouts evs sched = Some m →
  is_Some (m !! y) ↔ ∃ ev, ev ∈ evs ∧ event_year ev = Some y.
Proof. apply compute_payouts_keys_aux. Qed.

Lemma payout_keys_are_event_years_witness :
  compute_payouts same_year_events same_year_schedule
    = Some same_year_payouts ∧
  (is_Some (same_year_payouts !! 2000%Z) ↔
   ∃ ev, ev ∈ same_year_events ∧ event_year ev = Some 2000%Z) ∧
  same_year_payouts !! 2000%Z = None.
Proof.
  split; [vm_compute; reflexivity|].
  split; [|vm_compute; reflexivity].
  apply (payout_keys_are_event_years same_year_events same_year_schedule).
  vm_compute; reflexivity.
Defined.

(** X2: on a catalogue whose times are ASCII texts, [compute_payouts]
    raises (on [int(t[0:4])]) if and only if the first four characters of
    the time of some event are not an integer literal; no partial
    dictionary is returned. *)
Theorem compute_payouts_raises_iff (evs : list event) (sched : list band) :
  (∀ ev, ev ∈ evs → is_ascii (time ev)) →
  compute_payouts evs sched = None
  ↔ ∃ ev, ev ∈ evs ∧ PyInt.int (slice_0_4 (time ev)) = None.
Proof. intros _. apply compute_payouts_None_aux. Qed.

Lemma compute_payouts_raises_iff_witness :
  (∀ ev, ev ∈ malformed_events → is_ascii (time ev)) ∧
  (compute_payouts malformed_events scenario_schedule = None
   ↔ ∃ ev, ev ∈ malformed_events ∧ PyInt.int (slice_0_4 (time ev)) = None) ∧
  compute_payouts malformed_events scenario_schedule = None.
Proof.
  assert (∀ ev, ev ∈ malformed_events → is_ascii (time ev)) as Hascii.
  { intros ev Hev. unfold malformed_events in Hev.
    apply elem_of_cons in Hev as [->|Hev];
      [|apply list_elem_of_singleton in Hev as ->];
      unfold is_ascii; simpl; repeat constructor. }
  split; [exact Hascii|].
  split; [exact (compute_payouts_raises_iff _ scenario_schedule Hascii)|].
  vm_compute. reflexivity.
Defined.

Lemma events_of_year_same_rows (evs evs' : list event) (y : Z) :
  (∀ ev, ev ∈ evs ↔ ev ∈ evs') →
  ∀ x sched, x ∈ payout_of sched <$> events_of_year y evs
           ↔ x ∈ payout_of sched <$> events_of_year y evs'.
Proof.
  intros Hsame x sched. rewrite !list_elem_of_fmap.
  split; intros (ev & -> & Hev); exists ev; (split; [done|]);
    apply elem_of_events_of_year in Hev as [Hev Hy];
    apply elem_of_events_of_year; (split; [by apply Hsame|done]).
Qed.

Lemma compute_payouts_same_rows_aux (evs evs' : list event)
    (sched : list band) :
  (∀ ev, ev ∈ evs ↔ ev ∈ evs') →
  compute_payouts evs sched = compute_payouts evs' sched.
Proof.
  intros Hsame.
  destruct (compute_payouts evs sched) as [m|] eqn:Hm;
    destruct (compute_payouts evs' sched) as [m'|] eqn:Hm'; [|exfalso..|done].
  - f_equal. apply map_eq. intros y.
    pose proof (compute_payouts_lookup _ _ _ y Hm) as Hl.
    pose proof (compute_payouts_lookup _ _ _ y Hm') as Hl'.
    pose proof (events_of_year_same_rows evs evs' y Hsame) as Hrows.
    destruct (m !! y) as [v|], (m' !! y) as [v'|]; [|exfalso..|done].
    + f_equal. eapply is_max_of_unique; [|exact Hl|exact Hl'].
      intros x. apply Hrows.
    + destruct Hl as [Hin _]. apply Hrows in Hin. rewrite Hl' in Hin.
      by apply elem_of_nil in Hin.
    + destruct Hl' as [Hin _]. apply Hrows in Hin. rewrite Hl in Hin.
      by apply elem_of_nil in Hin.
  - apply compute_payouts_None_aux in Hm' as (ev & Hev & Hy).
    assert (compute_payouts evs sched = None) as Hnone
      by (apply compute_payouts_None_aux; exists ev; split; [by apply Hsame|done]).
    congruence.
  - apply compute_payouts_None_aux in Hm as (ev & Hev & Hy).
    assert (compute_payouts evs' sched = None) as Hnone
      by (apply compute_payouts_None_aux; exists ev; split; [by apply Hsame|done]).
    congruence.
Qed.

(** X3: the result depends on the set of catalogue rows only: two
    catalogues with the same rows, in any order and with any repetitions,
    give the same dictionary (or both raise). *)
Theorem compute_payouts_same_rows (evs evs' : list event)
    (sched : list band) :
  (∀ ev, ev ∈ evs ↔ ev ∈ evs') →
  compute_payouts evs sched = compute_payouts evs' sched.
Proof. apply compute_payouts_same_rows_aux. Qed.

Lemma compute_payouts_same_rows_witness :
  (∀ ev, ev ∈ same_year_events ↔ ev ∈ shuffled_events) ∧
  compute_payouts same_year_events same_year_schedule
  = compute_payouts shuffled_events same_year_schedule.
Proof.
  assert (∀ ev, ev ∈ same_year_events ↔ ev ∈ shuffled_events) as Hsame.
  { intros ev. unfold same_year_events, shuffled_events.
    rewrite !elem_of_cons, !elem_of_nil. tauto. }
  split; [exact Hsame|].
  exact (compute_payouts_same_rows _ _ same_year_schedule Hsame).
Defined.

(** *** Concatenating catalogues *)

Lemma Qc_max_assoc (a b c : Qc) :
  Qc_max (Qc_max a b) c = Qc_max a (Qc_max b c).
Proof. unfold Qc_max. repeat case_bool_decide; qc_order. Qed.

Lemma keep_larger_Some (old p : Qc) : keep_larger (Some old) p = Qc_max old p.
Proof. reflexivity. Qed.

Lemma yearly_value_from (sched : list band) (evs : list event) :
  ∀ o : option Qc,
    yearly_value sched o evs
    = union_with (λ a b, Some (Qc_max a b)) o (yearly_value sched None evs).
Proof.
  induction evs as [|ev evs IH]; intros o.
  - by destruct o.
  - unfold yearly_value in *. simpl.
    rewrite (IH (Some _)), (IH (Some (payout_of sched ev))).
    destruct (fold_left _ evs None) as [z|], o as [old|]; simpl; try done.
    f_equal. apply (Qc_max_assoc old (payout_of sched ev) z).
Qed.

Lemma payouts_loop_app (sched : list band) (evs1 evs2 : list event) :
  ∀ m : gmap Z Qc,
    payouts_loop sched m (evs1 ++ evs2)
    = m' ← payouts_loop sched m evs1; payouts_loop sched m' evs2.
Proof.
  induction evs1 as [|ev evs1 IH]; intros m; simpl; [done|].
  destruct (process_event sched m ev) as [m1|]; simpl; [apply IH|done].
Qed.

Lemma compute_payouts_app_aux (evs1 evs2 : list event) (sched : list band) :
  compute_payouts (evs1 ++ evs2) sched
  = m1 ← compute_payouts evs1 sched;
    m2 ← compute_payouts evs2 sched;
    Some (merge_payouts m1 m2).
Proof.
  unfold compute_payouts at 1. rewrite payouts_loop_app.
  fold (compute_payouts evs1 sched).
  destruct (compute_payouts evs1 sched) as [m1|] eqn:H1; simpl; [|done].
  destruct (compute_payouts evs2 sched) as [m2|] eqn:H2; simpl.
  - assert (is_Some (payouts_loop sched m1 evs2)) as [m Hm].
    { apply payouts_loop_returns, (compute_payouts_returns evs2 sched).
      eauto. }
    rewrite Hm. f_equal. apply map_eq. intros y.
    unfold merge_payouts. rewrite lookup_union_with.
    rewrite (payouts_loop_lookup _ _ _ _ y Hm), yearly_value_from.
    by rewrite (payouts_loop_lookup _ _ _ _ y H2), lookup_empty.
  - apply eq_None_not_Some. intros Hsome.
    apply payouts_loop_returns, (compute_payouts_returns evs2 sched) in Hsome.
    rewrite H2 in Hsome. by destruct Hsome.
Qed.

(** X4: the dictionary of two catalogues put end to end is the merge of
    their two dictionaries, a year present in both holding the larger of
    its two amounts; it raises as soon as one of the two raises. *)
Theorem compute_payouts_app (evs1 evs2 : list event) (sched : list band) :
  compute_payouts (evs1 ++ evs2) sched
  = m1 ← compute_payouts evs1 sched;
    m2 ← compute_payouts evs2 sched;
    Some (merge_payouts m1 m2).
Proof. apply compute_payouts_app_aux. Qed.

(** *** Changing the schedule *)

Lemma event_payout_more_bands_aux (sched sched' : list band) (mg dist : Qc) :
  (∀ b, b ∈ sched → b ∈ sched') →
  event_payout sched mg dist ≤ event_payout sched' mg dist.
Proof.
  intros Hsub.
  destruct (event_payout_max_with_zero mg dist sched) as [Hin _].
  destruct (event_payout_max_with_zero mg dist sched') as [_ Hub].
  apply Hub. apply elem_of_cons in Hin as [->|Hin]; [apply list_elem_of_here|].
  apply list_elem_of_further. unfold qualifying_payouts in *.
  apply list_elem_of_fmap in Hin as (b & -> & Hb).
  apply list_elem_of_fmap. exists b. split; [done|].
  apply list_elem_of_filter in Hb as [Hq Hb].
  apply list_elem_of_filter. auto.
Qed.

(** X5: adding bands to a schedule never lowers the per-event payout of
    any event. *)
Theorem event_payout_more_bands (sched sched' : list band) (mg dist : Qc) :
  (∀ b, b ∈ sched → b ∈ sched') →
  event_payout sched mg dist ≤ event_payout sched' mg dist.
Proof. apply event_payout_more_bands_aux. Qed.

Lemma event_payout_more_bands_witness :
  (∀ b, b ∈ [Band (Qc_of_Z 100) (Qc_of_Z 5) (Qc_of_Z 100)]
        → b ∈ same_year_schedule) ∧
  event_payout [Band (Qc_of_Z 100) (Qc_of_Z 5) (Qc_of_Z 100)]
               (Qc_of_Z 7) (Qc_of_Z 20)
  ≤ event_payout same_year_schedule (Qc_of_Z 7) (Qc_of_Z 20).
Proof.
  assert (∀ b, b ∈ [Band (Qc_of_Z 100) (Qc_of_Z 5) (Qc_of_Z 100)]
               → b ∈ same_year_schedule) as Hsub.
  { intros b ->%list_elem_of_singleton. apply list_elem_of_here. }
  split; [exact Hsub|].
  exact (event_payout_more_bands _ _ (Qc_of_Z 7) (Qc_of_Z 20) Hsub).
Defined.

Lemma payouts_loop_ext (sched sched' : list band) (evs : list event) :
  (∀ mg dist, event_payout sched mg dist = event_payout sched' mg dist) →
  ∀ m, payouts_loop sched m evs = payouts_loop sched' m evs.
Proof.
  intros Heq. induction evs as [|ev evs IH]; intros m; simpl; [done|].
  unfold process_event. rewrite Heq.
  destruct (event_year ev); simpl; [apply IH|done].
Qed.

(** X6: the order of the bands in the schedule and repeated bands are
    immaterial: two schedules with the same bands give the same
    dictionary for every catalogue. *)
Theorem compute_payouts_same_bands (evs : list event)
    (sched sched' : list band) :
  (∀ b, b ∈ sched ↔ b ∈ sched') →
  compute_payouts evs sched = compute_payouts evs sched'.
Proof.
  intros Hsame. apply payouts_loop_ext. intros mg dist.
  apply Qcle_antisym; apply event_payout_more_bands_aux; intros b; apply Hsame.
Qed.

Lemma compute_payouts_same_bands_witness :
  (∀ b, b ∈ same_year_schedule ↔ b ∈ reverse same_year_schedule) ∧
  compute_payouts same_year_events same_year_schedule
  = compute_payouts same_year_events (reverse same_year_schedule).
Proof.
  assert (∀ b, b ∈ same_year_schedule ↔ b ∈ reverse same_year_schedule)
    as Hsame by (intros b; by rewrite elem_of_reverse).
  split; [exact Hsame|].
  exact (compute_payouts_same_bands same_year_events _ _ Hsame).
Defined.

(** * Further properties of the burning cost aggregator *)

Lemma compute_burning_cost_cases (m : gmap Z Qc) (s e : Z) :
  compute_burning_cost m s e
  = if decide (burn_list m s e = []) then None
    else Some (interval_total m s e / Qc_of_Z (e - s + 1)).
Proof.
  case_decide as Hb.
  - by apply compute_burning_cost_None.
  - by rewrite compute_burning_cost_Some, np_sum_burn_list.
Qed.

Lemma interval_years_single (y : Z) : interval_years y y = [y].
Proof. unfold interval_years. by rewrite Z.sub_diag. Qed.

(** X7: over the one-year interval [[y, y]] the burning cost is the entry
    of [y] itself: the recorded payout when [y] is a key, and the no-data
    signal when it is not. *)
Theorem burning_cost_single_year (m : gmap Z Qc) (y : Z) :
  compute_burning_cost m y y = m !! y.
Proof.
  rewrite compute_burning_cost_cases. case_decide as Hb.
  - destruct (m !! y) as [v|] eqn:Hy; [|done].
    eapply burn_list_nil in Hb; [|eauto]. lia.
  - unfold interval_total. rewrite interval_years_single, Z.sub_diag.
    simpl. destruct (m !! y) as [v|] eqn:Hy.
    + simpl. f_equal. rewrite Z.add_0_l, Z2Qc_inj_0, Z2Qc_inj_1, Qcplus_0_r.
      apply (right_id 1 Qcdiv).
    + destruct Hb. apply burn_list_nil. intros y' [v Hv] Hr.
      assert (y' = y) as -> by lia. congruence.
Qed.

(** * Further properties of the distance calculator, over the reals *)

Local Close Scope Qc_scope.
Local Open Scope R_scope.

Lemma get_haversine_distance_unfold {F : Type} `{Arith F}
    (lats lons lat0 lon0 : F) :
  get_haversine_distance lats lons lat0 lon0
  = fmul (fmul (fint 2) (np_arcsin (arcsin_argument lats lons lat0 lon0)))
         (fint EARTH_RADIUS).
Proof. reflexivity. Qed.

Lemma arcsin_argument_range_aux (lats lons lat0 lon0 : R) :
  0 <= arcsin_argument lats lons lat0 lon0 <= 1.
Proof.
  unfold arcsin_argument.
  pose proof (haversine_a_range_R (to_radians lats) (to_radians lons)
                (to_radians lat0) (to_radians lon0)) as [Hlo Hhi].
  set (a := haversine_a _ _ _ _) in *.
  change (0 <= sqrt a <= 1). split; [apply sqrt_pos|].
  rewrite <- sqrt_1. apply sqrt_le_1; lra.
Qed.

Lemma asin_nonneg (x : R) : 0 <= x <= 1 -> 0 <= asin x <= PI / 2.
Proof.
  intros [Hlo Hhi]. pose proof (asin_bound x) as [Hb1 Hb2]. split; [|done].
  destruct (Rle_lt_dec 0 (asin x)) as [|Hneg]; [done|exfalso].
  pose proof PI_RGT_0 as Hpi.
  assert (sin (asin x) < 0) as Hsin by (apply sin_lt_0_var; lra).
  rewrite sin_asin in Hsin by lra. lra.
Qed.

(** X13: over the real numbers the value handed to the arcsine lies in
    [[0, 1]] for all arguments, inside the domain [[-1, 1]] of the
    arcsine. *)
Theorem arcsin_argument_in_domain (lats lons lat0 lon0 : R) :
  0 <= arcsin_argument lats lons lat0 lon0 <= 1.
Proof. apply arcsin_argument_range_aux. Qed.

(** X14: over the real numbers every distance lies between 0 and
    [pi * 6378], half the circumference of the sphere. *)
Theorem haversine_distance_range (lats lons lat0 lon0 : R) :
  0 <= get_haversine_distance lats lons lat0 lon0 <= PI * 6378.
Proof.
  rewrite get_haversine_distance_unfold.
  pose proof (asin_nonneg _ (arcsin_argument_range_aux lats lons lat0 lon0))
    as [Hlo Hhi].
  change (0 <= 2 * asin (arcsin_argument lats lons lat0 lon0) * 6378
          <= PI * 6378).
  lra.
Qed.

Lemma sin_half_sqr_period (x : R) :
  Rsqr (sin ((x + 2 * PI) / 2)) = Rsqr (sin (x / 2)).
Proof.
  replace ((x + 2 * PI) / 2) with (x / 2 + PI) by field.
  rewrite neg_sin. symmetry. apply Rsqr_neg.
Qed.

(** X15: over the real numbers, adding a full turn of 360 degrees to the
    longitude of the point leaves the distance unchanged. *)
Theorem haversine_longitude_full_turn (lats lons lat0 lon0 : R) :
  get_haversine_distance lats (lons + 360) lat0 lon0
  = get_haversine_distance lats lons lat0 lon0.
Proof.
  unfold get_haversine_distance, haversine_a, to_radians. simpl.
  replace ((lons + 360) * (PI / 180) - lon0 * (PI / 180))
    with ((lons * (PI / 180) - lon0 * (PI / 180)) + 2 * PI) by field.
  by rewrite sin_half_sqr_period.
Qed.

(** X17: over the real numbers the distance depends on the two
    longitudes through their difference only: turning both points by the
    same angle about the axis leaves it unchanged. *)
Theorem haversine_longitude_shift (lats lons lat0 lon0 delta : R) :
  get_haversine_distance lats (lons + delta) lat0 (lon0 + delta)
  = get_haversine_distance lats lons lat0 lon0.
Proof.
  unfold get_haversine_distance, haversine_a, to_radians. simpl.
  replace ((lons + delta) * (PI / 180) - (lon0 + delta) * (PI / 180))
    with (lons * (PI / 180) - lon0 * (PI / 180)) by field.
  done.
Qed.

(** * Merging the catalogues of several locations *)

Section CataloguesFacts.
Context {row : Type} `{EqDecision row}.
Implicit Types (df : list row) (r : row).

Lemma elem_of_drop_duplicates df r : r ∈ drop_duplicates df ↔ r ∈ df.
Proof.
  induction df as [|r' df IH]; simpl; [done|].
  rewrite !elem_of_cons, list_elem_of_filter, IH.
  destruct (decide (r = r')); tauto.
Qed.

Lemma NoDup_drop_duplicates df : NoDup (drop_duplicates df).
Proof.
  induction df as [|r df IH]; simpl; [constructor|].
  constructor; [|by apply NoDup_filter].
  rewrite list_elem_of_filter. intros [Hne _]. by apply Hne.
Qed.

Lemma filter_ne_id df r : r ∉ df → filter (λ r', r' ≠ r) df = df.
Proof.
  induction df as [|r' df IH]; intros Hr; [done|].
  apply not_elem_of_cons in Hr as [Hne Hr].
  rewrite filter_cons, decide_True by done. by rewrite IH.
Qed.

(** Dropping duplicates commutes with selecting rows. *)
Lemma drop_duplicates_filter (P : row → Prop) `{!∀ r, Decision (P r)} df :
  filter P (drop_duplicates df) = drop_duplicates (filter P df).
Proof.
  induction df as [|r df IH]; simpl; [done|].
  rewrite !filter_cons. destruct (decide (P r)) as [HP|HP]; simpl.
  - f_equal. rewrite <- IH, !list_filter_filter.
    apply list_filter_iff. tauto.
  - rewrite list_filter_filter.
    rewrite (list_filter_iff _ (λ r', (r' ≠ r) ∧ P r')) by tauto.
    rewrite <- list_filter_filter, IH. apply filter_ne_id.
    rewrite elem_of_drop_duplicates, list_elem_of_filter. tauto.
Qed.

(** Dropping duplicates after each catalogue amounts to dropping them
    once. *)
Lemma drop_duplicates_app_l df df' :
  drop_duplicates (drop_duplicates df ++ df') = drop_duplicates (df ++ df').
Proof.
  revert df'. induction df as [|r df IH]; intros df'; simpl; [done|].
  f_equal.
  rewrite (drop_duplicates_filter (λ r', r' ≠ r)
             (filter (λ r', r' ≠ r) (drop_duplicates df) ++ df')).
  rewrite filter_app, list_filter_filter.
  rewrite (list_filter_iff (λ r', r' ≠ r ∧ r' ≠ r) (λ r', r' ≠ r)) by tauto.
  rewrite <- filter_app, <- drop_duplicates_filter. by rewrite IH.
Qed.

Lemma drop_duplicates_NoDup df : NoDup df → drop_duplicates df = df.
Proof.
  induction 1 as [|r df Hr _ IH]; simpl; [done|].
  rewrite IH. f_equal. by apply filter_ne_id.
Qed.

Lemma elem_of_concat (cats : list (list row)) r :
  r ∈ concat cats ↔ ∃ c, c ∈ cats ∧ r ∈ c.
Proof.
  induction cats as [|c cats IH]; simpl.
  - split; [by intros ?%elem_of_nil|by intros (c & ?%elem_of_nil & _)].
  - rewrite elem_of_app, IH. split.
    + intros [Hr|(c0 & Hc0 & Hr)]; [exists c|exists c0];
        (split; [|done]); [apply list_elem_of_here|by apply list_elem_of_further].
    + intros (c0 & [->|Hc0]%elem_of_cons & Hr); eauto.
Qed.

Lemma merge_loop_from (cats : list (list row)) :
  ∀ df,
    fold_left merge_step cats (Some df)
    = Some (match cats with
            | [] => df
            | _ => drop_duplicates (df ++ concat cats)
            end).
Proof.
  induction cats as [|c cats IH]; intros df; simpl; [done|].
  rewrite IH. destruct cats as [|c' cats]; simpl.
  - by rewrite app_nil_r.
  - by rewrite drop_duplicates_app_l, <- !(assoc_L (++)).
Qed.

Lemma merge_catalogues_cons_aux (c : list row) (cats : list (list row)) :
  merge_catalogues (c :: cats)
  = Some (match cats with
          | [] => c
          | _ => drop_duplicates (concat (c :: cats))
          end).
Proof. unfold merge_catalogues. simpl. apply merge_loop_from. Qed.

(** X18: with two catalogues or more, dropping the duplicates after every
    concatenation gives what one pass over the concatenation of all
    catalogues gives: the rows of all catalogues in request order, each
    kept at its first occurrence. *)
Theorem merge_catalogues_is_one_pass (c c' : list row)
    (cats : list (list row)) :
  merge_catalogues (c :: c' :: cats)
  = Some (drop_duplicates (concat (c :: c' :: cats))).
Proof. apply merge_catalogues_cons_aux. Qed.

(** X19: a returned catalogue holds exactly the rows of the downloaded
    catalogues: no row is lost and none is invented; and without any
    location the function returns [None]. *)
Theorem merge_catalogues_rows (cats : list (list row)) :
  match merge_catalogues cats with
  | Some df => cats ≠ [] ∧ ∀ r, r ∈ df ↔ ∃ c, c ∈ cats ∧ r ∈ c
  | None => cats = []
  end.
Proof.
  destruct cats as [|c cats]; [done|].
  rewrite merge_catalogues_cons_aux. split; [done|]. intros r.
  pose proof (elem_of_concat (c :: cats) r) as Hcat.
  destruct cats as [|c' cats].
  - rewrite <- Hcat. simpl. by rewrite app_nil_r.
  - by rewrite elem_of_drop_duplicates.
Qed.

(** X20: with two catalogues or more the returned catalogue has no
    repeated row; with a single catalogue it is that catalogue as it was
    read, repeated rows included. *)
Theorem merge_catalogues_duplicates (cats : list (list row)) (df : list row) :
  merge_catalogues cats = Some df →
  ((2 ≤ length cats)%nat → NoDup df) ∧ (∀ c, cats = [c] → df = c).
Proof.
  intros Hm. split.
  - intros Hlen. destruct cats as [|c [|c' cats]]; simpl in Hlen; [lia..|].
    rewrite merge_catalogues_cons_aux in Hm. injection Hm as <-.
    apply NoDup_drop_duplicates.
  - intros c ->. rewrite merge_catalogues_cons_aux in Hm. congruence.
Qed.

End CataloguesFacts.

Lemma merge_catalogues_duplicates_witness :
  merge_catalogues [[1; 2; 2]%Z; [3; 1]%Z] = Some [1; 2; 3]%Z ∧
  NoDup [1; 2; 3]%Z ∧
  merge_catalogues [[1; 2; 2]%Z] = Some [1; 2; 2]%Z.
Proof.
  assert (merge_catalogues [[1; 2; 2]%Z; [3; 1]%Z] = Some [1; 2; 3]%Z)
    as Hm by reflexivity.
  split; [exact Hm|]. split; [|reflexivity].
  apply (merge_catalogues_duplicates _ _ Hm). simpl. lia.
Defined.

(** * The request URL *)

Lemma has_char_app (c : ascii) (a b : string) :
  has_char c (a +:+ b) = has_char c a || has_char c b.
Proof.
  induction a as [|c' a IH]; simpl; [done|].
  by rewrite IH, orb_assoc.
Qed.

Lemma split_on_cons_nonempty (sep : ascii) (s : string) :
  split_on sep s ≠ [].
Proof.
  destruct s as [|c s]; simpl; [done|].
  case_bool_decide; [done|]. by destruct (split_on sep s).
Qed.

Lemma split_on_app (sep : ascii) (a b : string) :
  has_char sep a = false →
  split_on sep (a +:+ String sep b) = a :: split_on sep b.
Proof.
  induction a as [|c a IH]; simpl.
  - intros _. by rewrite bool_decide_true.
  - intros [Hc Ha]%orb_false_iff. rewrite Hc, IH by done. done.
Qed.

Lemma split_on_plain (sep : ascii) (a : string) :
  has_char sep a = false → split_on sep a = [a].
Proof.
  induction a as [|c a IH]; simpl; [done|].
  intros [Hc Ha]%orb_false_iff. rewrite Hc, IH by done. done.
Qed.

(** Cutting at the separator undoes joining with it, as long as no item
    holds the separator. *)
Lemma split_on_join_with (sep : ascii) (items : list string) :
  items ≠ [] →
  Forall (λ item, has_char sep item = false) items →
  split_on sep (join_with sep items) = items.
Proof.
  induction items as [|item items IH]; intros Hne Hall; [done|].
  apply Forall_cons in Hall as [Hitem Hall].
  destruct items as [|item' items].
  - by apply split_on_plain.
  - change (join_with sep (item :: item' :: items))
      with (item +:+ String sep (join_with sep (item' :: items))).
    rewrite split_on_app by done. f_equal. by apply IH.
Qed.

Lemma has_char_join_with (c sep : ascii) (items : list string) :
  c ≠ sep →
  Forall (λ item, has_char c item = false) items →
  has_char c (join_with sep items) = false.
Proof.
  intros Hne. induction 1 as [|item items Hitem Hall IH]; [done|].
  destruct items as [|item' items]; [done|].
  change (join_with sep (item :: item' :: items))
    with (item +:+ String sep (join_with sep (item' :: items))).
  rewrite has_char_app, Hitem. simpl.
  rewrite bool_decide_false by congruence. done.
Qed.

Section ApiUrlFacts.
Context {number datetime : Type}.
Variable str : number → string.
Variable strftime_Y_m_d : datetime → string.
Variable minus_200_years : datetime → datetime.

(** The URL as a path, a question mark and items joined by [&]. *)
Lemma build_api_url_items (latitude longitude radius minimum_magnitude : number)
    (end_date : datetime) :
  build_api_url str strftime_Y_m_d minus_200_years
    latitude longitude radius minimum_magnitude end_date
  = "https://earthquake.usgs.gov/fdsnws/event/1/query"
    +:+ String "?" (join_with "&"
          [ "format=csv";
            "starttime=" +:+ strftime_Y_m_d (minus_200_years end_date);
            "endtime=" +:+ strftime_Y_m_d end_date;
            "minmagnitude=" +:+ str minimum_magnitude;
            "latitude=" +:+ str latitude;
            "longitude=" +:+ str longitude;
            "maxradiuskm=" +:+ str radius ]).
Proof. reflexivity. Qed.

(** X21: the parameters can be read back from the URL: when the texts of
    the four numbers and of the two dates hold neither [&] nor [?], the
    URL has the path of the USGS query service and exactly seven query
    items, in this order: the format [csv], the start date, the end date,
    the minimum magnitude, the latitude, the longitude and the radius. *)
Theorem build_api_url_read_back
    (latitude longitude radius minimum_magnitude : number)
    (end_date : datetime) :
  plain (str latitude) → plain (str longitude) → plain (str radius) →
  plain (str minimum_magnitude) →
  plain (strftime_Y_m_d end_date) →
  plain (strftime_Y_m_d (minus_200_years end_date)) →
  url_query (build_api_url str strftime_Y_m_d minus_200_years
               latitude longitude radius minimum_magnitude end_date)
  = Some ("https://earthquake.usgs.gov/fdsnws/event/1/query",
          [ ("format", "csv");
            ("starttime", strftime_Y_m_d (minus_200_years end_date));
            ("endtime", strftime_Y_m_d end_date);
            ("minmagnitude", str minimum_magnitude);
            ("latitude", str latitude);
            ("longitude", str longitude);
            ("maxradiuskm", str radius) ]).
Proof.
  intros [Hla Hla'] [Hlo Hlo'] [Hra Hra'] [Hmm Hmm'] [Hen Hen'] [Hst Hst'].
  rewrite build_api_url_items. unfold url_query.
  rewrite split_on_app by reflexivity.
  rewrite split_on_plain.
  - rewrite split_on_join_with; [done|done|].
    repeat (constructor; [by (simpl; done)|]). constructor.
  - apply has_char_join_with; [done|].
    repeat (constructor; [by (simpl; done)|]). constructor.
Qed.

End ApiUrlFacts.

(** The default arguments of [get_earthquake_data], the numbers printed
    in decimal and the dates given as they print. *)
Lemma build_api_url_read_back_witness :
  (pretty (-20)%Z, pretty (-175)%Z, pretty 1000%Z, pretty 5%Z)
  = ("-20", "-175", "1000", "5") ∧
  url_query (build_api_url (λ n : Z, pretty n) (λ d : string, d)
               (λ _ : string, "1821-10-22") (-20)%Z (-175)%Z 1000%Z 5%Z
               "2021-10-21")
  = Some ("https://earthquake.usgs.gov/fdsnws/event/1/query",
          [ ("format", "csv"); ("starttime", "1821-10-22");
            ("endtime", "2021-10-21"); ("minmagnitude", pretty 5%Z);
            ("latitude", pretty (-20)%Z); ("longitude", pretty (-175)%Z);
            ("maxradiuskm", pretty 1000%Z) ]).
Proof.
  split; [vm_compute; reflexivity|].
  apply (build_api_url_read_back (λ n : Z, pretty n) (λ d : string, d)
           (λ _ : string, "1821-10-22") (-20)%Z (-175)%Z 1000%Z 5%Z
           "2021-10-21"); split; vm_compute; reflexivity.
Defined.

(** * Reading the year of a time stamp *)

Local Open Scope Z_scope.

Lemma slice_0_4_four_digits (y : Z) (rest : string) :
  slice_0_4 (four_digits y +:+ rest) = four_digits y.
Proof.
  unfold slice_0_4, four_digits, String.app. simpl. by destruct rest.
Qed.

Lemma digit_cases (d : Z) :
  0 ≤ d ≤ 9 →
  d = 0 ∨ d = 1 ∨ d = 2 ∨ d = 3 ∨ d = 4 ∨ d = 5 ∨ d = 6 ∨ d = 7 ∨ d = 8
  ∨ d = 9.
Proof. lia. Qed.

(** A decimal digit is neither white space nor an underscore nor a sign,
    and [int] reads its value. *)
Lemma digit_char_facts (d : Z) :
  0 ≤ d ≤ 9 →
  PyInt.is_space (digit_char d) = false ∧
  PyInt.is_underscore (digit_char d) = false ∧
  PyInt.digit_val (digit_char d) = Some d ∧
  ∀ l, PyInt.signed (digit_char d :: l)
       = PyInt.digits (digit_char d :: l) 0 false.
Proof.
  intros Hd. pose proof (digit_cases d Hd) as Hcases.
  repeat destruct Hcases as [->|Hcases]; try subst d; done.
Qed.

Lemma int_four_digit_chars (d1 d2 d3 d4 : Z) :
  0 ≤ d1 ≤ 9 → 0 ≤ d2 ≤ 9 → 0 ≤ d3 ≤ 9 → 0 ≤ d4 ≤ 9 →
  PyInt.int (String (digit_char d1) (String (digit_char d2)
               (String (digit_char d3) (String (digit_char d4) ""))))
  = Some (1000 * d1 + 100 * d2 + 10 * d3 + d4).
Proof.
  intros (S1 & U1 & V1 & G1)%digit_char_facts (S2 & U2 & V2 & _)%digit_char_facts
         (S3 & U3 & V3 & _)%digit_char_facts (S4 & U4 & V4 & _)%digit_char_facts.
  unfold PyInt.int, PyInt.strip. cbn [list_ascii_of_string PyInt.lstrip].
  rewrite S1. cbn [rev app PyInt.lstrip]. rewrite S4. cbn [rev app].
  rewrite G1. cbn [PyInt.digits].
  rewrite U1, V1, U2, V2, U3, V3, U4, V4. f_equal. lia.
Qed.

(** X22: a time that starts with a year of [0 .. 9999] written on four
    decimal digits yields that year, whatever follows the four digits:
    the rest of the time is never read. *)
Theorem event_year_four_digits (y : Z) (rest : string) (mg dist : Qc) :
  0 ≤ y ≤ 9999 →
  event_year (Event (four_digits y +:+ rest) mg dist) = Some y.
Proof.
  intros Hy. unfold event_year. simpl time.
  rewrite slice_0_4_four_digits. unfold four_digits.
  rewrite int_four_digit_chars; [f_equal|..];
    Z.to_euclidean_division_equations; lia.
Qed.

Lemma event_year_four_digits_witness :
  0 ≤ 2001 ≤ 9999 ∧
  four_digits 2001 +:+ "-13-45 no date" = "2001-13-45 no date" ∧
  event_year (Event (four_digits 2001 +:+ "-13-45 no date")
                    (Qc_of_Z 6) (Qc_of_Z 50)) = Some 2001.
Proof.
  split; [lia|]. split; [reflexivity|].
  apply (event_year_four_digits 2001). lia.
Defined.

Local Open Scope Qc_scope.

(** X23: the amounts of the returned dictionary come from the schedule:
    the value of a year is 0 or the payout of a band of the schedule that
    some event of that year reaches. *)
Theorem yearly_payout_from_schedule (evs : list event) (sched : list band)
    (m : gmap Z Qc) (y : Z) (v : Qc) :
  compute_payouts evs sched = Some m →
  m !! y = Some v →
  v = Qc_of_Z 0 ∨
  ∃ ev b, ev ∈ evs ∧ event_year ev = Some y ∧ b ∈ sched ∧
          qualifies (mag ev) (distance ev) b = true ∧ Payout b = v.
Proof.
  intros Hrun Hv.
  destruct (yearly_payout_is_max_aux evs sched m y v Hrun Hv) as [Hin _].
  apply list_elem_of_fmap in Hin as (ev & -> & Hev).
  apply elem_of_events_of_year in Hev as [Hev Hy].
  destruct (event_payout_max_with_zero (mag ev) (distance ev) sched)
    as [Hp _].
  apply elem_of_cons in Hp as [Hp|Hp]; [by left|right].
  unfold qualifying_payouts in Hp.
  apply list_elem_of_fmap in Hp as (b & Hb & Hq).
  apply list_elem_of_filter in Hq as [Hq Hbs].
  exists ev, b. unfold payout_of. by rewrite Hb.
Qed.

Lemma yearly_payout_from_schedule_witness :
  compute_payouts same_year_events same_year_schedule
    = Some same_year_payouts ∧
  same_year_payouts !! 2001%Z = Some (Qc_of_Z 300) ∧
  (Qc_of_Z 300 = Qc_of_Z 0 ∨
   ∃ ev b, ev ∈ same_year_events ∧ event_year ev = Some 2001%Z ∧
           b ∈ same_year_schedule ∧
           qualifies (mag ev) (distance ev) b = true ∧
           Payout b = Qc_of_Z 300).
Proof.
  split; [vm_compute; reflexivity|].
  split; [vm_compute; reflexivity|].
  apply (yearly_payout_from_schedule same_year_events same_year_schedule
           same_year_payouts 2001%Z); vm_compute; reflexivity.
Defined.

(** * The aggregator in the arithmetic of the array *)

Local Open Scope Z_scope.

Section DtypeFacts.
Context {V F : Type} `{Dtype V F}.
Implicit Types (d : list (Z * V)) (l : list V) (v : V).

Lemma sum_of_fold_left l : ∀ l0 acc,
  sum_of l0 acc → sum_of (l0 ++ l) (fold_left dadd l acc).
Proof.
  induction l as [|x l IH]; intros l0 acc Hacc; simpl.
  - by rewrite app_nil_r.
  - rewrite (cons_middle x l0 l), (assoc_L (++)). apply IH.
    apply sum_of_app; [done|apply sum_of_one].
Qed.

(** Adding one element after the other is one way of summing. *)
Lemma sequential_sum_sum_of l : sum_of l (sequential_sum l).
Proof. apply (sum_of_fold_left l [] dzero), sum_of_nil. Qed.

Lemma foldr_sum_of l : sum_of l (foldr dadd dzero l).
Proof.
  induction l as [|x l IH]; simpl; [apply sum_of_nil|].
  apply (sum_of_app [x] l); [apply sum_of_one|done].
Qed.

Lemma elem_of_burn_items d (s e : Z) v :
  v ∈ burn_items d s e ↔ ∃ y, (y, v) ∈ d ∧ s ≤ y ≤ e.
Proof.
  unfold burn_items. rewrite list_elem_of_fmap. split.
  - intros ([y v'] & -> & Hin). apply list_elem_of_filter in Hin as [Hr Hin].
    apply in_range_spec in Hr. eauto.
  - intros (y & Hy & Hr). exists (y, v). split; [done|].
    apply list_elem_of_filter. split; [by apply in_range_spec|done].
Qed.

Lemma burn_items_nil d (s e : Z) :
  burn_items d s e = [] ↔ ∀ y v, (y, v) ∈ d → ¬ (s ≤ y ≤ e).
Proof.
  split.
  - intros Hnil y v Hy Hr.
    assert (v ∈ burn_items d s e) as Hin by (apply elem_of_burn_items; eauto).
    rewrite Hnil in Hin. by apply elem_of_nil in Hin.
  - intros Hno. destruct (burn_items d s e) as [|v l] eqn:Hb; [done|].
    assert (v ∈ burn_items d s e) as Hin by (rewrite Hb; apply list_elem_of_here).
    apply elem_of_burn_items in Hin as (y & Hy & Hr). by destruct (Hno y v).
Qed.

Lemma compute_burning_cost_dtype_cases (array_sum : list V → V) d (s e : Z) :
  compute_burning_cost_dtype array_sum d s e
  = match burn_items d s e with
    | [] => None
    | burn => Some (true_divide (array_sum burn) (e - s + 1))
    end.
Proof.
  unfold compute_burning_cost_dtype. by destruct (burn_items d s e).
Qed.

Lemma dict_get_Some d (y : Z) v :
  NoDup d.*1 → dict_get d y = Some v ↔ (y, v) ∈ d.
Proof. intros Hnd. unfold dict_get. by rewrite <- elem_of_list_to_map. Qed.

Lemma omap_lookup_insert (m : gmap Z V) (k : Z) v (years : list Z) :
  NoDup years → m !! k = None →
  omap (λ y, <[k := v]> m !! y) years
  ≡ₚ (if decide (k ∈ years) then [v] else []) ++ omap (λ y, m !! y) years.
Proof.
  intros Hnd Hk. induction Hnd as [|y years Hy Hnd IH]; [done|].
  cbn [omap list_omap]. destruct (decide (y = k)) as [->|Hne].
  - rewrite lookup_insert_eq, Hk, decide_True by apply list_elem_of_here.
    rewrite IH, decide_False by done. done.
  - rewrite lookup_insert_ne by done.
    rewrite (decide_ext (k ∈ y :: years) (k ∈ years))
      by (rewrite elem_of_cons; intuition congruence).
    destruct (m !! y) as [x|]; [|done].
    by rewrite IH, Permutation_middle.
Qed.

(** The array that is summed holds the payouts of the mapping's years
    inside the interval, in the order of insertion instead of the order of
    the years. *)
Lemma burn_items_selected d (s e : Z) :
  NoDup d.*1 → burn_items d s e ≡ₚ selected_by_year d s e.
Proof.
  unfold selected_by_year, dict_get.
  induction d as [|[k v] d IH]; intros Hnd.
  - unfold burn_items. simpl.
    induction (interval_years s e) as [|y years IHy]; [done|].
    cbn [omap list_omap]. by rewrite lookup_empty.
  - apply NoDup_cons in Hnd as [Hk Hnd]. simpl in Hk.
    cbn [list_to_map foldr]. simpl.
    rewrite omap_lookup_insert
      by (apply NoDup_seqZ || by apply not_elem_of_list_to_map_1).
    unfold burn_items in *. rewrite filter_cons. simpl.
    destruct (decide (in_range s e k = true)) as [Hr|Hr];
      [rewrite decide_True by by apply elem_of_interval_years, in_range_spec
      |rewrite decide_False
         by by rewrite elem_of_interval_years, <- in_range_spec];
      simpl; by rewrite IH.
Qed.

Section Exact.
Context `{!DtypeExact V F}.

Lemma dadd_zero_r v : dadd v dzero = v.
Proof. by rewrite dadd_comm, dadd_zero_l. Qed.

Lemma foldr_dadd_app l1 l2 :
  foldr dadd dzero (l1 ++ l2)
  = dadd (foldr dadd dzero l1) (foldr dadd dzero l2).
Proof.
  induction l1 as [|x l1 IH]; simpl; [by rewrite dadd_zero_l|].
  by rewrite IH, dadd_assoc.
Qed.

Lemma foldr_dadd_Permutation l l' :
  l ≡ₚ l' → foldr dadd dzero l = foldr dadd dzero l'.
Proof.
  induction 1 as [|x l l' _ IH|x y l|l l' l'' _ IH1 _ IH2]; simpl.
  - done.
  - by rewrite IH.
  - by rewrite !dadd_assoc, (dadd_comm x y).
  - congruence.
Qed.

(** Where the order and the grouping are immaterial, every way of summing
    gives the sum taken element after element. *)
Lemma sum_of_exact l v : sum_of l v → v = foldr dadd dzero l.
Proof.
  induction 1 as [|x|l1 l2 v1 v2 _ IH1 _ IH2|l l' v Hperm _ IH].
  - done.
  - simpl. by rewrite dadd_zero_r.
  - by rewrite foldr_dadd_app, IH1, IH2.
  - by rewrite <- (foldr_dadd_Permutation l l').
Qed.

End Exact.

Lemma burning_cost_sum_aux (array_sum : list V → V) d (s e : Z) :
  (∀ l, sum_of l (array_sum l)) →
  NoDup d.*1 →
  burn_items d s e ≠ [] →
  ∃ v, compute_burning_cost_dtype array_sum d s e
       = Some (true_divide v (e - s + 1)) ∧
       sum_of (selected_by_year d s e) v ∧
       (DtypeExact V F → v = total_by_year d s e).
Proof.
  intros Hsum Hnd Hb. exists (array_sum (burn_items d s e)).
  split; [|split].
  - rewrite compute_burning_cost_dtype_cases.
    by destruct (burn_items d s e).
  - eapply sum_of_perm; [by apply burn_items_selected|apply Hsum].
  - intros Hexact. unfold total_by_year. apply sum_of_exact.
    eapply sum_of_perm; [by apply burn_items_selected|apply Hsum].
Qed.

(** C1: for every payouts mapping and closed interval
    [[start_year, end_year]] containing at least one year of the mapping,
    the result is the true division, by the requested interval length
    [end_year - start_year + 1] and not by the number of years present, of
    a sum of exactly the payouts of the mapping's years inside the
    interval; where sums do not depend on the order and the grouping of
    the additions, it is the division of their sum taken year after
    year. *)
Theorem burning_cost_sum_over_interval_length (array_sum : list V → V)
    d (s e : Z) :
  (∀ l, sum_of l (array_sum l)) →
  NoDup d.*1 →
  (∃ y v, (y, v) ∈ d ∧ s ≤ y ≤ e) →
  ∃ v, compute_burning_cost_dtype array_sum d s e
       = Some (true_divide v (e - s + 1)) ∧
       sum_of (selected_by_year d s e) v ∧
       (DtypeExact V F → v = total_by_year d s e).
Proof.
  intros Hsum Hnd (y & v & Hy & Hr). apply burning_cost_sum_aux; [done..|].
  intros Hnil. by eapply burn_items_nil in Hnil.
Qed.

End DtypeFacts.

(** *** The two arithmetics *)

#[export] Instance exact_dtype_exact : DtypeExact Qc Qc.
Proof.
  split; simpl; intros.
  - apply Qcplus_comm.
  - apply Qcplus_assoc.
  - by rewrite Z2Qc_inj_0, Qcplus_0_l.
Qed.

Lemma int64_eq (a b : int64) : `a = `b → a = b.
Proof. apply (sig_eq_pi _). Qed.

Lemma wrap64_small (z : Z) : - 2 ^ 63 ≤ z < 2 ^ 63 → wrap64 z = z.
Proof. intros Hz. unfold wrap64. rewrite Z.mod_small; lia. Qed.

Lemma wrap64_add_l (x y : Z) : wrap64 (wrap64 x + y) = wrap64 (x + y).
Proof.
  unfold wrap64.
  replace ((x + 2 ^ 63) `mod` 2 ^ 64 - 2 ^ 63 + y + 2 ^ 63)
    with ((x + 2 ^ 63) `mod` 2 ^ 64 + y) by lia.
  rewrite Zplus_mod_idemp_l. f_equal. f_equal. lia.
Qed.

Lemma wrap64_add_l' (x y : Z) : wrap64 (x + wrap64 y) = wrap64 (x + y).
Proof. by rewrite Z.add_comm, wrap64_add_l, Z.add_comm. Qed.

Lemma int64_range (a : int64) : - 2 ^ 63 ≤ `a < 2 ^ 63.
Proof. destruct a as [z Hz]. simpl. by apply bool_decide_unpack in Hz. Qed.

(** Wrap-around addition is commutative and associative, and 0 is
    neutral. *)
#[export] Instance int64_dtype_exact : DtypeExact int64 PrimFloat.float.
Proof.
  split; simpl; intros; apply int64_eq; simpl.
  - by rewrite Z.add_comm.
  - rewrite wrap64_add_l', wrap64_add_l. f_equal. lia.
  - rewrite wrap64_add_l. simpl. apply wrap64_small, int64_range.
Qed.

Lemma NoDup_denominator_years : NoDup denominator_items.*1.
Proof.
  simpl. apply NoDup_cons. split; [|apply NoDup_singleton].
  rewrite list_elem_of_singleton. lia.
Qed.

Lemma float64_20_ne_50 : float64_of_Z 20 ≠ float64_of_Z 50.
Proof.
  intros Heq. apply (f_equal (PrimFloat.eqb (float64_of_Z 20))) in Heq.
  vm_compute in Heq. discriminate Heq.
Qed.

(** Payouts [{2000: 100, 2001: 0}] of dtype int64 over [[2000, 2004]]:
    100 / 5 = 20.0, and not 100 / 2 = 50.0. *)
Lemma burning_cost_sum_over_interval_length_witness :
  (∀ l : list int64, sum_of l (sequential_sum l)) ∧
  NoDup denominator_items.*1 ∧
  (∃ y v, (y, v) ∈ denominator_items ∧ 2000 ≤ y ≤ 2004) ∧
  compute_burning_cost_dtype sequential_sum denominator_items 2000 2004
    = Some (float64_of_Z 20) ∧
  float64_of_Z 20 ≠ float64_of_Z 50.
Proof.
  pose proof (sequential_sum_sum_of (V := int64)) as Hsum.
  pose proof NoDup_denominator_years as Hnd.
  assert (∃ y v, (y, v) ∈ denominator_items ∧ 2000 ≤ y ≤ 2004) as Hin.
  { exists 2000, (int64_of_Z 100). split; [apply list_elem_of_here|lia]. }
  split; [exact Hsum|]. split; [exact Hnd|]. split; [exact Hin|].
  split; [|exact float64_20_ne_50].
  destruct (burning_cost_sum_over_interval_length sequential_sum
              denominator_items 2000 2004 Hsum Hnd Hin)
    as (v & Hres & _ & Hexact).
  rewrite (Hexact _) in Hres. rewrite Hres.
  apply (f_equal Some). vm_compute. reflexivity.
Defined.

(** Two payouts of [2^62] of dtype int64: their sum wraps around to
    [-2^63] and the burning cost over the two years is [-2^62]. *)
Example burning_cost_wraps :
  compute_burning_cost_dtype sequential_sum wrapping_items 2000 2001
  = Some (float64_of_Z (- 2 ^ 62)).
Proof. vm_compute. reflexivity. Qed.

Section DtypeFurther.
Context {V F : Type} `{Dtype V F}.
Implicit Types (d : list (Z * V)) (l : list V) (v : V).

Lemma burn_items_nil_get d (s e : Z) :
  NoDup d.*1 →
  burn_items d s e = [] ↔ ∀ y, s ≤ y ≤ e → dict_get d y = None.
Proof.
  intros Hnd. rewrite burn_items_nil. split.
  - intros Hno y Hr. apply eq_None_not_Some. intros [v Hv].
    apply dict_get_Some in Hv; [|done]. by eapply Hno.
  - intros Hno y v Hy Hr. apply dict_get_Some in Hy; [|done].
    rewrite Hno in Hy by done. discriminate Hy.
Qed.

Lemma selected_by_year_local d d' (s e : Z) :
  (∀ y, s ≤ y ≤ e → dict_get d y = dict_get d' y) →
  selected_by_year d s e = selected_by_year d' s e.
Proof.
  intros Hsame. unfold selected_by_year.
  assert (∀ y, y ∈ interval_years s e → dict_get d y = dict_get d' y)
    as Hyears by (intros y Hy%elem_of_interval_years; by apply Hsame).
  induction (interval_years s e) as [|y years IH]; [done|].
  cbn [omap list_omap].
  rewrite (Hyears y) by apply list_elem_of_here.
  rewrite IH; [done|]. intros y' Hy'. by apply Hyears, list_elem_of_further.
Qed.

(** X8: where sums do not depend on the order and the grouping of the
    additions (exact numbers, wrap-around int64; not float64), only the
    years of the interval are looked at: two mappings that agree on every
    year of [[start_year, end_year]] have the same burning cost, whatever
    they hold outside and whatever their insertion orders. *)
Theorem burning_cost_local `{!DtypeExact V F} (array_sum : list V → V)
    d d' (s e : Z) :
  (∀ l, sum_of l (array_sum l)) →
  NoDup d.*1 → NoDup d'.*1 →
  (∀ y, s ≤ y ≤ e → dict_get d y = dict_get d' y) →
  compute_burning_cost_dtype array_sum d s e
  = compute_burning_cost_dtype array_sum d' s e.
Proof.
  intros Hsum Hnd Hnd' Hsame.
  destruct (decide (burn_items d s e = [])) as [Hb|Hb].
  - assert (burn_items d' s e = []) as Hb'.
    { apply burn_items_nil_get; [done|]. intros y Hr.
      rewrite <- Hsame by done. by eapply burn_items_nil_get. }
    by rewrite !compute_burning_cost_dtype_cases, Hb, Hb'.
  - assert (burn_items d' s e ≠ []) as Hb'.
    { intros Hnil. apply Hb, burn_items_nil_get; [done|]. intros y Hr.
      rewrite Hsame by done. by eapply burn_items_nil_get. }
    destruct (burning_cost_sum_aux array_sum d s e Hsum Hnd Hb)
      as (v & -> & _ & Hv).
    destruct (burning_cost_sum_aux array_sum d' s e Hsum Hnd' Hb')
      as (v' & -> & _ & Hv').
    rewrite (Hv _), (Hv' _). unfold total_by_year.
    by rewrite (selected_by_year_local d d').
Qed.

Lemma sum_of_nonneg `{!DtypeSigned V F} l v :
  sum_of l v → (∀ x, x ∈ l → nonneg x) → nonneg v.
Proof.
  induction 1 as [|x|l1 l2 v1 v2 _ IH1 _ IH2|l l' v Hperm _ IH]; intros Hl.
  - apply nonneg_dzero.
  - apply Hl, list_elem_of_here.
  - apply nonneg_dadd; [apply IH1|apply IH2]; intros x Hx; apply Hl;
      rewrite elem_of_app; auto.
  - apply IH. intros x Hx. apply Hl. by rewrite <- Hperm.
Qed.

(** X9: where a sum of non-negative amounts is non-negative (exact
    numbers, float64; not wrap-around int64), the burning cost is
    non-negative when the payouts recorded for the years of the interval
    are: the length by which the sum is divided is positive whenever the
    division is reached. *)
Theorem burning_cost_nonneg `{!DtypeSigned V F} (array_sum : list V → V)
    d (s e : Z) (r : F) :
  (∀ l, sum_of l (array_sum l)) →
  (∀ y v, (y, v) ∈ d → s ≤ y ≤ e → nonneg v) →
  compute_burning_cost_dtype array_sum d s e = Some r →
  nonneg_quotient r.
Proof.
  intros Hsum Hpos Hr. rewrite compute_burning_cost_dtype_cases in Hr.
  destruct (burn_items d s e) as [|x burn] eqn:Hb; [done|].
  injection Hr as <-. apply nonneg_true_divide.
  - eapply sum_of_nonneg; [apply Hsum|]. rewrite <- Hb.
    intros v (y & Hy & Hin)%elem_of_burn_items. eauto.
  - assert (x ∈ burn_items d s e) as Hx by (rewrite Hb; apply list_elem_of_here).
    apply elem_of_burn_items in Hx as (y & _ & Hin). lia.
Qed.

Lemma burn_items_widen d (s e s' e' : Z) :
  s' ≤ s → e ≤ e' →
  (∀ y v, (y, v) ∈ d → s' ≤ y ≤ e' → s ≤ y ≤ e) →
  burn_items d s' e' = burn_items d s e.
Proof.
  intros Hs He Hin. unfold burn_items. f_equal.
  induction d as [|[y v] d IH]; [done|].
  rewrite !filter_cons, IH
    by (intros y' v' Hy'; by apply (Hin y' v'), list_elem_of_further).
  pose proof (Hin y v (list_elem_of_here _ _)) as Hy. simpl.
  repeat case_decide; try done;
    repeat match goal with
           | H : in_range _ _ _ = true |- _ => apply in_range_spec in H
           | H : ¬ in_range _ _ _ = true |- _ => rewrite in_range_spec in H
           end; lia.
Qed.

(** X12: widening the interval over years that carry no entry leaves the
    array that is summed, and so its sum, as they are; only the length by
    which the sum is divided changes.  This holds in every arithmetic,
    float64 included. *)
Theorem burning_cost_widen (array_sum : list V → V) d (s e s' e' : Z)
    (r : F) :
  s' ≤ s → e ≤ e' →
  (∀ y v, (y, v) ∈ d → s' ≤ y ≤ e' → s ≤ y ≤ e) →
  compute_burning_cost_dtype array_sum d s e = Some r →
  ∃ v, r = true_divide v (e - s + 1) ∧
       compute_burning_cost_dtype array_sum d s' e'
       = Some (true_divide v (e' - s' + 1)).
Proof.
  intros Hs He Hin Hr. exists (array_sum (burn_items d s e)).
  rewrite compute_burning_cost_dtype_cases in *.
  rewrite (burn_items_widen d s e s' e') by done.
  destruct (burn_items d s e); [done|]. split; congruence.
Qed.

End DtypeFurther.

(** Exact numbers carry the usual notion of non-negative amount. *)
Lemma exact_nonneg_add (x y : Qc) :
  (Qc_of_Z 0 ≤ x → Qc_of_Z 0 ≤ y → Qc_of_Z 0 ≤ x + y)%Qc.
Proof.
  rewrite Z2Qc_inj_0. intros Hx Hy.
  rewrite <- (Qcplus_0_l 0). by apply Qcplus_le_compat.
Qed.

Lemma exact_nonneg_divide (v : Qc) (n : Z) :
  (Qc_of_Z 0 ≤ v)%Qc → 0 < n → (Qc_of_Z 0 ≤ v / Qc_of_Z n)%Qc.
Proof.
  rewrite Z2Qc_inj_0. intros Hv Hn. unfold Qcdiv.
  apply Qcmult_nonneg_nonneg; [done|].
  apply Qclt_le_weak, Qcinv_pos. rewrite <- Z2Qc_inj_0.
  by apply (proj1 (Z2Qc_inj_lt 0 n)).
Qed.

#[export] Instance exact_dtype_signed : DtypeSigned Qc Qc := {|
  nonneg v := (Qc_of_Z 0 ≤ v)%Qc;
  nonneg_quotient r := (Qc_of_Z 0 ≤ r)%Qc;
  nonneg_dzero := Qcle_refl (Qc_of_Z 0);
  nonneg_dadd := exact_nonneg_add;
  nonneg_true_divide := exact_nonneg_divide
|}.

Lemma burning_cost_local_witness :
  (∀ l : list int64, sum_of l (sequential_sum l)) ∧
  NoDup denominator_items.*1 ∧ NoDup reordered_items.*1 ∧
  (∀ y, 2000 ≤ y ≤ 2004 →
        dict_get denominator_items y = dict_get reordered_items y) ∧
  compute_burning_cost_dtype sequential_sum denominator_items 2000 2004
  = compute_burning_cost_dtype sequential_sum reordered_items 2000 2004.
Proof.
  pose proof (sequential_sum_sum_of (V := int64)) as Hsum.
  pose proof NoDup_denominator_years as Hnd.
  assert (NoDup reordered_items.*1) as Hnd'.
  { simpl. repeat (apply NoDup_cons; split;
      [rewrite ?elem_of_cons, ?elem_of_nil; lia|]). apply NoDup_nil_2. }
  assert (∀ y, 2000 ≤ y ≤ 2004 →
               dict_get denominator_items y = dict_get reordered_items y)
    as Hsame.
  { intros y Hy.
    assert (y = 2000 ∨ y = 2001 ∨ y = 2002 ∨ y = 2003 ∨ y = 2004)
      as [->|[->|[->|[->| ->]]]] by lia; reflexivity. }
  split; [exact Hsum|]. split; [exact Hnd|]. split; [exact Hnd'|].
  split; [exact Hsame|].
  exact (burning_cost_local sequential_sum _ _ 2000 2004 Hsum Hnd Hnd' Hsame).
Defined.

Lemma burning_cost_nonneg_witness :
  (∀ l : list Qc, sum_of l (sequential_sum l)) ∧
  (∀ y v, (y, v) ∈ exact_items → 2000 ≤ y ≤ 2004 → nonneg v) ∧
  compute_burning_cost_dtype sequential_sum exact_items 2000 2004
    = Some (Q2Qc (100 # 5)) ∧
  nonneg_quotient (Q2Qc (100 # 5)).
Proof.
  pose proof (sequential_sum_sum_of (V := Qc)) as Hsum.
  assert (∀ y v, (y, v) ∈ exact_items → 2000 ≤ y ≤ 2004 → nonneg v)
    as Hpos.
  { intros y v Hv _. unfold exact_items in Hv.
    apply elem_of_cons in Hv as [[= -> ->]|Hv]; [done|].
    apply list_elem_of_singleton in Hv as [= -> ->]. done. }
  assert (compute_burning_cost_dtype sequential_sum exact_items 2000 2004
          = Some (Q2Qc (100 # 5))) as Hr.
  { apply (f_equal Some), Qc_is_canon. vm_compute. reflexivity. }
  split; [exact Hsum|]. split; [exact Hpos|]. split; [exact Hr|].
  exact (burning_cost_nonneg sequential_sum exact_items 2000 2004 _
           Hsum Hpos Hr).
Defined.

Lemma burning_cost_widen_witness :
  2000 ≤ 2000 ∧ 2001 ≤ 2004 ∧
  (∀ y v, (y, v) ∈ denominator_items → 2000 ≤ y ≤ 2004 → 2000 ≤ y ≤ 2001) ∧
  compute_burning_cost_dtype sequential_sum denominator_items 2000 2001
    = Some (float64_of_Z 50) ∧
  ∃ v, float64_of_Z 50 = true_divide v (2001 - 2000 + 1) ∧
       compute_burning_cost_dtype sequential_sum denominator_items 2000 2004
       = Some (true_divide v (2004 - 2000 + 1)).
Proof.
  assert (∀ y v, (y, v) ∈ denominator_items → 2000 ≤ y ≤ 2004
                 → 2000 ≤ y ≤ 2001) as Hin.
  { intros y v Hv _. unfold denominator_items in Hv.
    apply elem_of_cons in Hv as [[= -> _]|Hv]; [lia|].
    apply list_elem_of_singleton in Hv as [= -> _]. lia. }
  assert (compute_burning_cost_dtype sequential_sum denominator_items
            2000 2001 = Some (float64_of_Z 50)) as Hr
    by (vm_compute; reflexivity).
  split; [lia|]. split; [lia|]. split; [exact Hin|]. split; [exact Hr|].
  apply (burning_cost_widen sequential_sum denominator_items
           2000 2001 2000 2004); [lia|lia|exact Hin|exact Hr].
Defined.

(** *** The reading in exact numbers *)

Lemma interval_total_by_year (d : list (Z * Qc)) (s e : Z) :
  interval_total (list_to_map d) s e = total_by_year d s e.
Proof.
  unfold interval_total, total_by_year, selected_by_year, dict_get.
  induction (interval_years s e) as [|y years IH]; [done|].
  rewrite fmap_cons, np_sum_cons, IH. cbn [omap list_omap].
  destruct (list_to_map d !! y) as [v|]; simpl; [done|].
  by rewrite Z2Qc_inj_0, Qcplus_0_l.
Qed.

(** [compute_burning_cost] is the aggregator in exact numbers, on the
    mapping that the dictionary holds. *)
Lemma compute_burning_cost_exact (d : list (Z * Qc)) (s e : Z) :
  NoDup d.*1 →
  compute_burning_cost (list_to_map d) s e
  = compute_burning_cost_dtype np_sum d s e.
Proof.
  intros Hnd. rewrite compute_burning_cost_cases.
  assert (burn_list (list_to_map d) s e = [] ↔ burn_items d s e = [])
    as Hnil.
  { rewrite burn_list_nil, burn_items_nil. split.
    - intros Hno y v Hy. apply Hno. exists v.
      by apply (elem_of_list_to_map_1 d).
    - intros Hno y [v Hy]. apply (Hno y v).
      by apply elem_of_list_to_map_2. }
  case_decide as Hb.
  - apply Hnil in Hb. by rewrite compute_burning_cost_dtype_cases, Hb.
  - assert (burn_items d s e ≠ []) as Hb' by (by rewrite <- Hnil).
    assert (∀ l : list Qc, sum_of l (np_sum l)) as Hsum
      by exact foldr_sum_of.
    destruct (burning_cost_sum_aux np_sum d s e Hsum Hnd Hb')
      as (v & -> & _ & Hv).
    by rewrite (Hv _), interval_total_by_year.
Qed.
